(** * cpp_py_shmbuf: the shared-memory byte ring buffer and its facades

    A shallow embedding of [byte_ring_buffer.hpp], [shm_channel.hpp] and the
    POSIX branch of [shared_memory.hpp] (of its Win32 branch, the
    normalisation of names only).

    - [uint32_t] values are integers of [Z] in [0, 2^32); every C++
      operation that can wrap is followed by [wrap32].
    - The mapped region is a record: the four header words and the bytes
      that follow them.  A [ByteRingBuffer] object holds only its private
      members ([mask_], [is_producer_]); the region it points to is passed
      to each operation and returned by it, so that two views bound to the
      same region share it.
    - [std::memcpy] on a range that leaves its source or destination array
      has no defined result: [memcpy] returns [None] there, and so does
      every operation that reaches it.
    - Fences have no effect on a sequential run and are left out. *)

From Stdlib Require Import ZArith Lia Bool Ascii String Permutation List.
From coqutil Require Import Byte Word.LittleEndianList.
Import ListNotations.
Local Open Scope Z_scope.

(** ** 32-bit arithmetic and raw memory *)

Definition wrap32 (z : Z) : Z := z mod 2 ^ 32.

Definition bind {A B : Type} (o : option A) (f : A -> option B) : option B :=
  match o with
  | Some a => f a
  | None => None
  end.

Notation "x <- e ;; k" := (bind e (fun x => k))
  (at level 61, e at next level, right associativity).

(** [memcpy dst doff src soff n] is [std::memcpy(dst + doff, src + soff, n)]:
    the new contents of the array [dst]. *)
Definition memcpy {A : Type} (dst : list A) (doff : Z) (src : list A) (soff n : Z)
  : option (list A) :=
  if (0 <=? doff) && (0 <=? soff) && (0 <=? n)
     && (doff + n <=? Z.of_nat (length dst))
     && (soff + n <=? Z.of_nat (length src))
  then Some (firstn (Z.to_nat doff) dst
             ++ firstn (Z.to_nat n) (skipn (Z.to_nat soff) src)
             ++ skipn (Z.to_nat (doff + n)) dst)
  else None.

(** The bytes of a [uint32_t] object on the little-endian host. *)
Definition u32_bytes (w : Z) : list byte := le_split 4 w.

(** ** The ring header and the region *)

Definition kHeaderSize : Z := 16.

Record RingHeader : Type := mkRingHeader {
  head : Z;
  tail : Z;
  capacity : Z;
  reserved : Z
}.

Record Region : Type := mkRegion {
  header : RingHeader;
  data : list byte
}.

Definition set_head (m : Region) (v : Z) : Region :=
  mkRegion (mkRingHeader v (tail (header m)) (capacity (header m)) (reserved (header m)))
           (data m).

Definition set_tail (m : Region) (v : Z) : Region :=
  mkRegion (mkRingHeader (head (header m)) v (capacity (header m)) (reserved (header m)))
           (data m).

Definition set_data (m : Region) (d : list byte) : Region :=
  mkRegion (header m) d.

Record ByteRingBuffer : Type := mkByteRingBuffer {
  mask_ : Z;
  is_producer_ : bool
}.

(** ** ByteRingBuffer *)

Definition RoundDownPow2 (v : Z) : Z :=
  if v =? 0 then 0
  else
    let v := Z.lor v (Z.shiftr v 1) in
    let v := Z.lor v (Z.shiftr v 2) in
    let v := Z.lor v (Z.shiftr v 4) in
    let v := Z.lor v (Z.shiftr v 8) in
    let v := Z.lor v (Z.shiftr v 16) in
    wrap32 (Z.shiftr v 1 + 1).

(** The constructor, over the region found at [shm_base]. *)
Definition ByteRingBuffer_new (m : Region) (total_size : Z) (is_producer : bool)
  : ByteRingBuffer * Region :=
  let m' :=
    if is_producer then
      let data_size := wrap32 (total_size - kHeaderSize) in
      let cap := RoundDownPow2 data_size in
      mkRegion (mkRingHeader 0 0 cap 0) (data m)
    else m in
  (mkByteRingBuffer (wrap32 (capacity (header m') - 1)) is_producer, m').

Definition Capacity (m : Region) : Z := capacity (header m).

Definition WriteableBytes (m : Region) : Z :=
  let hd := head (header m) in
  let tl := tail (header m) in
  wrap32 (capacity (header m) - wrap32 (hd - tl)).

Definition ReadableBytes (m : Region) : Z :=
  let tl := tail (header m) in
  let hd := head (header m) in
  wrap32 (hd - tl).

Definition HasData (m : Region) : bool := ReadableBytes m >=? 4.

Definition WriteRaw (rb : ByteRingBuffer) (m : Region) (pos : Z) (src : list byte) (len : Z)
  : option Region :=
  let offset := Z.land pos (mask_ rb) in
  let first := wrap32 (capacity (header m) - offset) in
  if first >=? len then
    d <- memcpy (data m) offset src 0 len ;;
    Some (set_data m d)
  else
    d1 <- memcpy (data m) offset src 0 first ;;
    d2 <- memcpy d1 0 src first (wrap32 (len - first)) ;;
    Some (set_data m d2).

(** [ReadRaw] returns the new contents of the array at [dst]. *)
Definition ReadRaw (rb : ByteRingBuffer) (m : Region) (pos : Z) (dst : list byte) (len : Z)
  : option (list byte) :=
  let offset := Z.land pos (mask_ rb) in
  let first := wrap32 (capacity (header m) - offset) in
  if first >=? len then
    memcpy dst 0 (data m) offset len
  else
    d1 <- memcpy dst 0 (data m) offset first ;;
    memcpy d1 first (data m) 0 (wrap32 (len - first)).

(** [Write data len]: the returned flag and the region afterwards. *)
Definition Write (rb : ByteRingBuffer) (m : Region) (src : list byte) (len : Z)
  : option (bool * Region) :=
  let total := wrap32 (len + 4) in
  if WriteableBytes m <? total then Some (false, m)
  else
    let hd := head (header m) in
    m1 <- WriteRaw rb m hd (u32_bytes len) 4 ;;
    m2 <- WriteRaw rb m1 (wrap32 (hd + 4)) src len ;;
    Some (true, set_head m2 (wrap32 (hd + total))).

(** [Read out max_len]: the returned length, the caller's buffer afterwards
    and the region afterwards. *)
Definition Read (rb : ByteRingBuffer) (m : Region) (out : list byte) (max_len : Z)
  : option (Z * list byte * Region) :=
  let tl := tail (header m) in
  let hd := head (header m) in
  let available := wrap32 (hd - tl) in
  if available <? 4 then Some (0, out, m)
  else
    lenbuf <- ReadRaw rb m tl (u32_bytes 0) 4 ;;
    let msg_len := le_combine lenbuf in
    if (msg_len =? 0) || (available <? wrap32 (msg_len + 4)) then Some (0, out, m)
    else if msg_len >? max_len then
      Some (0, out, set_tail m (wrap32 (wrap32 (tl + msg_len) + 4)))
    else
      out' <- ReadRaw rb m (wrap32 (tl + 4)) out msg_len ;;
      Some (msg_len, out', set_tail m (wrap32 (wrap32 (tl + msg_len) + 4))).

(** ** SharedMemory (POSIX branch) *)

Inductive Error : Type :=
  | kOk
  | kCreationFailed
  | kMappingFailed
  | kOpenFailed
  | kTruncateFailed.

(** What the system calls of the region provider answer.  The name space
    of the host is not modelled further: each field is the outcome of one
    call on the normalised name. *)
Record PosixEnv : Type := mkPosixEnv {
  shm_create_ok : list ascii -> bool;       (* shm_open(O_CREAT | O_RDWR) <> -1 *)
  shm_open_ok : list ascii -> bool;         (* shm_open(O_RDWR) <> -1 *)
  ftruncate_ok : list ascii -> Z -> bool;   (* ftruncate(fd, size) <> -1 *)
  fstat_size : list ascii -> option Z;      (* st_size when fstat returns 0 *)
  mmap_ok : list ascii -> Z -> bool         (* mmap(..., size, ...) <> MAP_FAILED *)
}.

Record SharedMemory : Type := mkSharedMemory {
  data_nonnull : bool;   (* data_ != nullptr *)
  size_ : Z;
  error_ : Error;
  persist_ : bool;
  create_ : bool;
  name_ : list ascii     (* char name_[64] *)
}.

Definition sizeof_name_ : Z := 64.

(** [a[i] = x] on an array. *)
Definition store {A : Type} (a : list A) (i : Z) (x : A) : option (list A) :=
  if (0 <=? i) && (i <? Z.of_nat (length a))
  then Some (firstn (Z.to_nat i) a ++ x :: skipn (Z.to_nat (i + 1)) a)
  else None.

(** The C string held by a [char] array: the characters before the first NUL. *)
Fixpoint c_str (a : list ascii) : list ascii :=
  match a with
  | [] => []
  | c :: a' => if Ascii.eqb c Ascii.zero then [] else c :: c_str a'
  end.

Definition strlen (s : list ascii) : Z := Z.of_nat (length (c_str s)).

(** [NormalizeName], the branch compiled when [_WIN32] is not defined.
    [name] holds the characters of the argument (its terminating NUL is not
    part of the list, so [name[0]] of the empty string is NUL); the result is
    the array [name_] afterwards. *)
Definition NormalizeName (name_ : list ascii) (name : list ascii) : option (list ascii) :=
  let len := strlen name in
  if Ascii.eqb (hd Ascii.zero name) "/"%char then
    let len := if len >? sizeof_name_ - 1 then sizeof_name_ - 1 else len in
    a <- memcpy name_ 0 name 0 len ;;
    store a len Ascii.zero
  else
    let len := if len >? sizeof_name_ - 2 then sizeof_name_ - 2 else len in
    a <- store name_ 0 "/"%char ;;
    a <- memcpy a 1 name 0 len ;;
    store a (len + 1) Ascii.zero.

(** [MapRegion]: the value of [data_ != nullptr] and the status. *)
Definition MapRegion (env : PosixEnv) (nm : list ascii) (size : Z) : bool * Error :=
  if mmap_ok env nm size then (true, kOk) else (false, kMappingFailed).

(** [PosixCreate] and [PosixOpen]: [data_ != nullptr], [size_] and the status. *)
Definition PosixCreate (env : PosixEnv) (nm : list ascii) (size : Z) : bool * Z * Error :=
  if negb (shm_create_ok env nm) then (false, size, kCreationFailed)
  else if negb (ftruncate_ok env nm size) then (false, size, kTruncateFailed)
  else let '(ok, e) := MapRegion env nm size in (ok, size, e).

Definition PosixOpen (env : PosixEnv) (nm : list ascii) (size : Z) : bool * Z * Error :=
  if negb (shm_open_ok env nm) then (false, size, kOpenFailed)
  else
    let size :=
      if size =? 0 then
        match fstat_size env nm with
        | Some st_size => if st_size >? 0 then st_size else size
        | None => size
        end
      else size in
    let '(ok, e) := MapRegion env nm size in (ok, size, e).

Definition CreateOrOpen (env : PosixEnv) (nm : list ascii) (size : Z) (create : bool)
  : bool * Z * Error :=
  if create then PosixCreate env nm size else PosixOpen env nm size.

(** The constructor.  [None] only if [NormalizeName] left the array. *)
Definition SharedMemory_new (env : PosixEnv) (name : list ascii) (size : Z)
    (create persist : bool) : option SharedMemory :=
  nm <- NormalizeName (repeat Ascii.zero (Z.to_nat sizeof_name_)) name ;;
  let '(ok, sz, e) := CreateOrOpen env (c_str nm) size create in
  Some (mkSharedMemory ok sz e persist create nm).

Definition Valid (s : SharedMemory) : bool := data_nonnull s.
Definition Size (s : SharedMemory) : Z := size_ s.
Definition Name (s : SharedMemory) : list ascii := c_str (name_ s).

(** ** The channel facades *)

Record ShmProducer : Type := mkShmProducer {
  prod_shm_ : SharedMemory;
  prod_ring_ : option ByteRingBuffer   (* ring_, nullptr as None *)
}.

Record ShmConsumer : Type := mkShmConsumer {
  cons_shm_ : SharedMemory;
  cons_ring_ : option ByteRingBuffer
}.

Definition kDefaultSize : Z := wrap32 (1920 * 1080 * 3 + kHeaderSize).

(** The facade constructors; [m] is the contents of the region that the
    provider maps (left as it is when the provider fails). *)
Definition ShmProducer_new (env : PosixEnv) (m : Region) (name : list ascii) (capacity : Z)
  : option (ShmProducer * Region) :=
  shm <- SharedMemory_new env name (wrap32 (capacity + kHeaderSize)) true true ;;
  if Valid shm then
    let '(rb, m') := ByteRingBuffer_new m (wrap32 (Size shm)) true in
    Some (mkShmProducer shm (Some rb), m')
  else Some (mkShmProducer shm None, m).

(** The size that the consumer facade hands to [SharedMemory]. *)
Definition ShmConsumer_shm_size (size : Z) : Z :=
  if size >? 0 then size else kDefaultSize.

(** The consumer maps [Size shm] bytes of the region and its ring takes the
    capacity from the header: [m] stands for the mapped bytes, so the ring
    operations on it are those of the code only when
    [kHeaderSize + Capacity m <= Size shm]; beyond the mapping the code
    reads and writes memory that it does not own. *)
Definition ShmConsumer_new (env : PosixEnv) (m : Region) (name : list ascii) (size : Z)
  : option (ShmConsumer * Region) :=
  shm <- SharedMemory_new env name (ShmConsumer_shm_size size) false true ;;
  if Valid shm then
    let '(rb, m') := ByteRingBuffer_new m (wrap32 (Size shm)) false in
    Some (mkShmConsumer shm (Some rb), m')
  else Some (mkShmConsumer shm None, m).

Definition ShmProducer_Capacity (p : ShmProducer) (m : Region) : Z :=
  match prod_ring_ p with
  | Some _ => Capacity m
  | None => 0
  end.

Definition ShmProducer_Write (p : ShmProducer) (m : Region) (src : list byte) (len : Z)
  : option (bool * Region) :=
  match prod_ring_ p with
  | Some rb => Write rb m src len
  | None => Some (false, m)
  end.

Definition ShmConsumer_Read (c : ShmConsumer) (m : Region) (out : list byte) (max_len : Z)
  : option (Z * list byte * Region) :=
  match cons_ring_ c with
  | Some rb => Read rb m out max_len
  | None => Some (0, out, m)
  end.

(** ** Notions used to state the properties *)

(** The byte of an array at an index, and the byte of the data area that a
    32-bit position of the ring denotes. *)
Definition zget (l : list byte) (i : Z) : byte := nth (Z.to_nat i) l Byte.x00.

Definition ring_byte (m : Region) (p : Z) : byte :=
  zget (data m) (p mod capacity (header m)).

(** A view bound to a region whose header a producer has initialised. *)
Record wf (rb : ByteRingBuffer) (m : Region) : Prop := mkwf {
  wf_pow2 : exists k, 0 <= k <= 31 /\ capacity (header m) = 2 ^ k;
  wf_mask : mask_ rb = capacity (header m) - 1;
  wf_data : capacity (header m) <= Z.of_nat (length (data m));
  wf_head : 0 <= head (header m) < 2 ^ 32;
  wf_tail : 0 <= tail (header m) < 2 ^ 32
}.

(** The frames that lie between [tail] and [head], oldest first: each is
    its payload, stored after the four bytes of its length. *)
Definition frame_size (f : list byte) : Z := 4 + Z.of_nat (length f).

Fixpoint frames_size (fs : list (list byte)) : Z :=
  match fs with
  | [] => 0
  | f :: fs' => frame_size f + frames_size fs'
  end.

Fixpoint frames_at (m : Region) (pos : Z) (fs : list (list byte)) : Prop :=
  match fs with
  | [] => True
  | f :: fs' =>
      (forall i, 0 <= i < 4 ->
         ring_byte m (pos + i) = zget (u32_bytes (Z.of_nat (length f))) i)
      /\ (forall i, 0 <= i < Z.of_nat (length f) ->
            ring_byte m (pos + 4 + i) = zget f i)
      /\ frames_at m (pos + frame_size f) fs'
  end.

Record holds (rb : ByteRingBuffer) (m : Region) (fs : list (list byte)) : Prop := mkholds {
  holds_wf : wf rb m;
  holds_occ : ReadableBytes m = frames_size fs;
  holds_fit : frames_size fs <= capacity (header m);
  holds_frames : frames_at m (tail (header m)) fs
}.

(** A run of writes, with the flag each returned, and a run of reads, each
    with its own buffer and [max_len], with what each returned. *)
Fixpoint write_seq (rb : ByteRingBuffer) (m : Region) (msgs : list (list byte))
  : option (list bool * Region) :=
  match msgs with
  | [] => Some ([], m)
  | p :: rest =>
      r <- Write rb m p (Z.of_nat (length p)) ;;
      r' <- write_seq rb (snd r) rest ;;
      Some (fst r :: fst r', snd r')
  end.

Fixpoint read_seq (rb : ByteRingBuffer) (m : Region) (bufs : list (list byte * Z))
  : option (list (Z * list byte) * Region) :=
  match bufs with
  | [] => Some ([], m)
  | b :: rest =>
      r <- Read rb m (fst b) (snd b) ;;
      r' <- read_seq rb (snd r) rest ;;
      Some (fst r :: fst r', snd r')
  end.

(** What a reader that is handed the payload [p] in the buffer [b] returns. *)
Definition delivered (p : list byte) (b : list byte * Z) : Z * list byte :=
  (Z.of_nat (length p), p ++ skipn (length p) (fst b)).

(** Arbitrary interleavings of the two operations. *)
Inductive Op : Type :=
  | OpWrite (src : list byte) (len : Z)
  | OpRead (out : list byte) (max_len : Z).

Definition step (rb : ByteRingBuffer) (m : Region) (op : Op) : option Region :=
  match op with
  | OpWrite src len => r <- Write rb m src len ;; Some (snd r)
  | OpRead out max_len => r <- Read rb m out max_len ;; Some (snd r)
  end.

Fixpoint run (rb : ByteRingBuffer) (m : Region) (ops : list Op) : option Region :=
  match ops with
  | [] => Some m
  | op :: ops' => m' <- step rb m op ;; run rb m' ops'
  end.

(** The occupancy bound of the header. *)
Definition occupancy_ok (m : Region) : Prop :=
  0 <= capacity (header m) < 2 ^ 32
  /\ 0 <= ReadableBytes m <= capacity (header m).

(** [c] is the largest power of two that does not exceed [x]. *)
Definition largest_pow2_le (c x : Z) : Prop :=
  (exists k, 0 <= k /\ c = 2 ^ k)
  /\ c <= x
  /\ forall j, 0 <= j -> 2 ^ j <= x -> 2 ^ j <= c.

(** Regions and bytes used in the examples. *)
Definition zeros (n : nat) : list byte := repeat Byte.x00 n.

Definition blank (n : nat) : Region := mkRegion (mkRingHeader 0 0 0 0) (zeros n).

(** The length prefix that [Read] finds at [tail]. *)
Definition length_prefix (rb : ByteRingBuffer) (m : Region) : option Z :=
  lenbuf <- ReadRaw rb m (tail (header m)) (u32_bytes 0) 4 ;;
  Some (le_combine lenbuf).

(** A ring of 16 bytes, fresh from the producer-mode constructor, over a
    data area of bytes [0xff]. *)
Definition ring16 : ByteRingBuffer * Region :=
  ByteRingBuffer_new (mkRegion (mkRingHeader 0 0 0 0) (repeat Byte.xff 16)) 32 true.

(** A ring of 16 bytes that a 12-byte payload has filled. *)
Definition full16 : Region :=
  mkRegion (mkRingHeader 16 0 16 0)
           (u32_bytes 12 ++ repeat Byte.x41 12).

Definition view16 : ByteRingBuffer := mkByteRingBuffer 15 true.


(** Two frames that wrap around the end of a 16-byte data area. *)
Definition ops16 : list Op :=
  [OpWrite (repeat Byte.x41 6) 6; OpRead (zeros 8) 8;
   OpWrite (repeat Byte.x42 8) 8; OpWrite (repeat Byte.x43 8) 8;
   OpRead (zeros 8) 8].

(** The ring after [ops16]: the third write found no room. *)
Definition final16 : Region :=
  mkRegion (mkRingHeader 22 22 16 0)
           (repeat Byte.x42 6 ++ repeat Byte.x41 4 ++ u32_bytes 8 ++ repeat Byte.x42 2).

(** An empty ring of 16 bytes whose indices are about to pass 2^32, and
    the same ring after payloads of two bytes and of one byte were written. *)
Definition late16 : Region :=
  mkRegion (mkRingHeader 4294967290 4294967290 16 0) (zeros 16).

Definition late16_written : Region :=
  mkRegion (mkRingHeader 5 4294967290 16 0)
           (u32_bytes 1 ++ [Byte.x43] ++ zeros 5 ++ u32_bytes 2 ++ [Byte.x41; Byte.x42]).

(** A host on which every call succeeds and [fstat] reports 80 bytes. *)
Definition env_ok : PosixEnv :=
  mkPosixEnv (fun _ => true) (fun _ => true) (fun _ _ => true)
             (fun _ => Some 80) (fun _ _ => true).

(** The region of 80 bytes (16 + 64) that a producer has created. *)
Definition region64 : Region := snd (ByteRingBuffer_new (blank 64) 80 true).

Definition ring_name : list ascii := list_ascii_of_string "ring".

(** Two names of 63 characters that differ in the last one. *)
Definition long_name (c : ascii) : list ascii := repeat "a"%char 62 ++ [c].

(** ** Further notions: outcomes of runs and a queue of payloads *)

(** What one operation hands back to its caller. *)
Inductive Outcome : Type :=
  | Wrote (ok : bool)
  | Got (n : Z) (out : list byte).

Definition step_out (rb : ByteRingBuffer) (m : Region) (op : Op)
  : option (Outcome * Region) :=
  match op with
  | OpWrite src len => r <- Write rb m src len ;; Some (Wrote (fst r), snd r)
  | OpRead out max_len =>
      r <- Read rb m out max_len ;;
      Some (Got (fst (fst r)) (snd (fst r)), snd r)
  end.

Fixpoint run_out (rb : ByteRingBuffer) (m : Region) (ops : list Op)
  : option (list Outcome * Region) :=
  match ops with
  | [] => Some ([], m)
  | op :: ops' =>
      r <- step_out rb m op ;;
      r' <- run_out rb (snd r) ops' ;;
      Some (fst r :: fst r', snd r')
  end.

(** The same operations on a plain queue of payloads that may hold [cap]
    bytes, four of them spent on each payload: a write appends when there
    is room; a read hands out the oldest payload, drops it when it is longer
    than [max_len], and stays put in front of an empty one. *)
Definition queue_step (cap : Z) (q : list (list byte)) (op : Op)
  : Outcome * list (list byte) :=
  match op with
  | OpWrite src len =>
      if cap - frames_size q <? len + 4 then (Wrote false, q)
      else (Wrote true, q ++ [firstn (Z.to_nat len) src])
  | OpRead out max_len =>
      match q with
      | [] => (Got 0 out, q)
      | f :: q' =>
          if Z.of_nat (length f) =? 0 then (Got 0 out, q)
          else if Z.of_nat (length f) >? max_len then (Got 0 out, q')
          else (Got (Z.of_nat (length f)) (f ++ skipn (length f) out), q')
      end
  end.

Fixpoint queue_run (cap : Z) (q : list (list byte)) (ops : list Op)
  : list Outcome * list (list byte) :=
  match ops with
  | [] => ([], q)
  | op :: ops' =>
      let r := queue_step cap q op in
      let r' := queue_run cap (snd r) ops' in
      (fst r :: fst r', snd r')
  end.

(** The caller keeps its side of the contract: the buffers are as long as
    the lengths it passes, and [len + 4] does not wrap. *)
Definition op_ok (op : Op) : Prop :=
  match op with
  | OpWrite src len => 0 <= len /\ len + 4 < 2 ^ 32 /\ len <= Z.of_nat (length src)
  | OpRead out max_len => 0 <= max_len <= Z.of_nat (length out)
  end.

(** ** Further accessors of the facades and of [SharedMemory] *)

Definition GetError (s : SharedMemory) : Error := error_ s.

Definition ShmProducer_IsValid (p : ShmProducer) : bool :=
  match prod_ring_ p with
  | Some _ => true
  | None => false
  end.

Definition ShmProducer_WriteableBytes (p : ShmProducer) (m : Region) : Z :=
  match prod_ring_ p with
  | Some _ => WriteableBytes m
  | None => 0
  end.

Definition ShmConsumer_IsValid (c : ShmConsumer) : bool :=
  match cons_ring_ c with
  | Some _ => true
  | None => false
  end.

Definition ShmConsumer_HasData (c : ShmConsumer) (m : Region) : bool :=
  match cons_ring_ c with
  | Some _ => HasData m
  | None => false
  end.

Definition ShmConsumer_ReadableBytes (c : ShmConsumer) (m : Region) : Z :=
  match cons_ring_ c with
  | Some _ => ReadableBytes m
  | None => 0
  end.

Definition ShmConsumer_Capacity (c : ShmConsumer) (m : Region) : Z :=
  match cons_ring_ c with
  | Some _ => Capacity m
  | None => 0
  end.

(** [NormalizeName], the branch compiled when [_WIN32] is defined: one
    leading slash is dropped. *)
Definition NormalizeName_win32 (name_ : list ascii) (name : list ascii)
  : option (list ascii) :=
  let src := if Ascii.eqb (hd Ascii.zero name) "/"%char then tl name else name in
  let len := strlen src in
  let len := if len >? sizeof_name_ - 1 then sizeof_name_ - 1 else len in
  a <- memcpy name_ 0 src 0 len ;;
  store a len Ascii.zero.

(** The name that a fresh [SharedMemory] keeps for an argument. *)
Definition stored_name (name : list ascii) : option (list ascii) :=
  a <- NormalizeName (repeat Ascii.zero (Z.to_nat sizeof_name_)) name ;;
  Some (c_str a).

Definition stored_name_win32 (name : list ascii) : option (list ascii) :=
  a <- NormalizeName_win32 (repeat Ascii.zero (Z.to_nat sizeof_name_)) name ;;
  Some (c_str a).

(** A host on which the region exists but holds no bytes, and on which a
    mapping of length 0 is refused. *)
Definition env_empty : PosixEnv :=
  mkPosixEnv (fun _ => true) (fun _ => true) (fun _ _ => true)
             (fun _ => Some 0) (fun _ sz => negb (sz =? 0)).

(** The facades over [region64], on the host [env_ok], and the region after
    the producer wrote the five bytes of [hello]. *)
Definition ring_name_ : list ascii := list_ascii_of_string "/ring" ++ repeat Ascii.zero 59.

Definition prod64 : ShmProducer :=
  mkShmProducer (mkSharedMemory true 80 kOk true true ring_name_)
                (Some (mkByteRingBuffer 63 true)).

Definition cons64 : ShmConsumer :=
  mkShmConsumer (mkSharedMemory true 6220816 kOk true false ring_name_)
                (Some (mkByteRingBuffer 63 false)).

Definition hello : list byte := [Byte.x68; Byte.x65; Byte.x6c; Byte.x6c; Byte.x6f].

Definition hello64 : Region :=
  mkRegion (mkRingHeader 9 0 64 0) (u32_bytes 5 ++ hello ++ zeros 55).

(** A host on which no region can be created or opened. *)
Definition env_down : PosixEnv :=
  mkPosixEnv (fun _ => false) (fun _ => false) (fun _ _ => true)
             (fun _ => None) (fun _ _ => true).

(** ** The life of a [SharedMemory] object, with the system calls it makes *)

Inductive Syscall : Type :=
  | Sys_shm_unlink (nm : list ascii)
  | Sys_shm_open (nm : list ascii) (creat ok : bool)
  | Sys_ftruncate (size : Z) (ok : bool)
  | Sys_fstat
  | Sys_mmap (size : Z) (ok : bool)
  | Sys_munmap (size : Z)
  | Sys_close.

(** The object with its descriptor: [fd_open] is [fd_ != -1]. *)
Record Handle : Type := mkHandle {
  obj : SharedMemory;
  fd_open : bool
}.

(** [static_cast<off_t>(size_)]: the value as a signed 64-bit integer. *)
Definition off_t_of (z : Z) : Z := (z + 2 ^ 63) mod 2 ^ 64 - 2 ^ 63.

(** [MapRegion], [PosixCreate] and [PosixOpen] once more, now with the
    descriptor and the calls in the order the code makes them:
    [data_ != nullptr], [fd_ != -1], [size_], the status, the calls. *)
Definition MapRegion_tr (env : PosixEnv) (nm : list ascii) (size : Z) (create : bool)
  : bool * bool * Error * list Syscall :=
  if mmap_ok env nm size then (true, true, kOk, [Sys_mmap size true])
  else (false, false, kMappingFailed,
        [Sys_mmap size false; Sys_close]
        ++ (if create then [Sys_shm_unlink nm] else [])).

Definition PosixCreate_tr (env : PosixEnv) (nm : list ascii) (size : Z)
  : bool * bool * Z * Error * list Syscall :=
  if negb (shm_create_ok env nm) then
    (false, false, size, kCreationFailed,
     [Sys_shm_unlink nm; Sys_shm_open nm true false])
  else if negb (ftruncate_ok env nm size) then
    (false, false, size, kTruncateFailed,
     [Sys_shm_unlink nm; Sys_shm_open nm true true; Sys_ftruncate (off_t_of size) false;
      Sys_close; Sys_shm_unlink nm])
  else
    let '(ok, fd, e, tr) := MapRegion_tr env nm size true in
    (ok, fd, size, e,
     [Sys_shm_unlink nm; Sys_shm_open nm true true; Sys_ftruncate (off_t_of size) true]
     ++ tr).

Definition PosixOpen_tr (env : PosixEnv) (nm : list ascii) (size : Z)
  : bool * bool * Z * Error * list Syscall :=
  if negb (shm_open_ok env nm) then
    (false, false, size, kOpenFailed, [Sys_shm_open nm false false])
  else
    let size' :=
      if size =? 0 then
        match fstat_size env nm with
        | Some st_size => if st_size >? 0 then st_size else size
        | None => size
        end
      else size in
    let '(ok, fd, e, tr) := MapRegion_tr env nm size' false in
    (ok, fd, size', e,
     [Sys_shm_open nm false true] ++ (if size =? 0 then [Sys_fstat] else []) ++ tr).

Definition Handle_new (env : PosixEnv) (name : list ascii) (size : Z)
    (create persist : bool) : option (Handle * list Syscall) :=
  nm <- NormalizeName (repeat Ascii.zero (Z.to_nat sizeof_name_)) name ;;
  let '(ok, fd, sz, e, tr) :=
    if create then PosixCreate_tr env (c_str nm) size
    else PosixOpen_tr env (c_str nm) size in
  Some (mkHandle (mkSharedMemory ok sz e persist create nm) fd, tr).

Definition Destroy (h : Handle) : list Syscall :=
  if Ascii.eqb (hd Ascii.zero (name_ (obj h))) Ascii.zero then []
  else [Sys_shm_unlink (c_str (name_ (obj h)))].

(** [Close], which is also the destructor. *)
Definition Close (h : Handle) : Handle * list Syscall :=
  if negb (data_nonnull (obj h)) then (h, [])
  else
    let s := obj h in
    (mkHandle (mkSharedMemory false (size_ s) (error_ s) (persist_ s) (create_ s) (name_ s))
              false,
     [Sys_munmap (size_ s)]
     ++ (if fd_open h then [Sys_close] else [])
     ++ (if negb (persist_ s) && create_ s then Destroy h else [])).

(** [MoveFrom(other)]: the object that takes over, and [other] afterwards. *)
Definition MoveFrom (other : Handle) : Handle * Handle :=
  let s := obj other in
  (mkHandle (mkSharedMemory (data_nonnull s) (size_ s) (error_ s) (persist_ s)
                            (create_ s) (name_ s))
            (fd_open other),
   mkHandle (mkSharedMemory false (size_ s) (error_ s) (persist_ s) (create_ s)
                            (match name_ s with
                             | [] => []
                             | _ :: r => Ascii.zero :: r
                             end))
            false).

(** The objects of a program, by address.  A reference is an address, so
    two references may name the same object. *)
Definition Store : Type := list Handle.

Fixpoint put (st : Store) (a : nat) (h : Handle) : Store :=
  match st, a with
  | [], _ => []
  | _ :: r, O => h :: r
  | x :: r, S a' => x :: put r a' h
  end.

(** The move constructor: a new object, at the next free address, built by
    [MoveFrom(other)]. *)
Definition move_construct (st : Store) (other : nat) : option (Store * nat) :=
  o <- nth_error st other ;;
  let '(this', other') := MoveFrom o in
  Some (put st other other' ++ [this'], length st).

(** Move assignment [*this = std::move(other)]: nothing when [other] is
    [*this]; otherwise [Close()], then [MoveFrom(other)].  The result is the
    store afterwards and the calls made. *)
Definition move_assign (st : Store) (this other : nat) : option (Store * list Syscall) :=
  t <- nth_error st this ;;
  o <- nth_error st other ;;
  if negb (Nat.eqb this other) then
    let '(t', tr) := Close t in
    let st1 := put st this t' in
    let '(this', other') := MoveFrom o in
    Some (put (put st1 this this') other other', tr)
  else Some (st, []).

(** The calls that the destructors of all objects make. *)
Definition destroy_all (st : Store) : list Syscall :=
  flat_map (fun h => snd (Close h)) st.

(** Two objects: a region created without [persist], and an opened one. *)
Definition store2 : Store :=
  [mkHandle (mkSharedMemory true 80 kOk false true ring_name_) true;
   mkHandle (mkSharedMemory true 6220816 kOk true false ring_name_) true].

(** [RemoveSharedMemory(name)]: the calls it makes, the destructor of the
    temporary included. *)
Definition RemoveSharedMemory (env : PosixEnv) (name : list ascii) : option (list Syscall) :=
  r <- Handle_new env name 16 false false ;;
  let '(tmp, tr) := r in
  Some (tr ++ Destroy tmp ++ snd (Close tmp)).

(** Descriptors and mappings that a sequence of calls leaves open, and the
    names it unlinks. *)
Fixpoint open_fds (tr : list Syscall) : Z :=
  match tr with
  | [] => 0
  | Sys_shm_open _ _ true :: r => open_fds r + 1
  | Sys_close :: r => open_fds r - 1
  | _ :: r => open_fds r
  end.

Fixpoint live_maps (tr : list Syscall) : Z :=
  match tr with
  | [] => 0
  | Sys_mmap _ true :: r => live_maps r + 1
  | Sys_munmap _ :: r => live_maps r - 1
  | _ :: r => live_maps r
  end.

Fixpoint unlinked (tr : list Syscall) : list (list ascii) :=
  match tr with
  | [] => []
  | Sys_shm_unlink nm :: r => nm :: unlinked r
  | _ :: r => unlinked r
  end.

(** * Properties *)

(** ** Capacity rounding *)

Lemma wrap32_small (z : Z) : 0 <= z < 2 ^ 32 -> wrap32 z = z.
Proof. intros H. unfold wrap32. apply Z.mod_small. exact H. Qed.

Lemma wrap32_range (z : Z) : 0 <= wrap32 z < 2 ^ 32.
Proof. unfold wrap32. apply Z.mod_pos_bound. reflexivity. Qed.

Lemma wrap32_idem (z : Z) : wrap32 (wrap32 z) = wrap32 z.
Proof. apply wrap32_small. apply wrap32_range. Qed.

(** One line [v |= v >> m] of [RoundDownPow2] doubles the window of bits of
    the argument that each bit of [v] collects. *)
Lemma smear_step (v w m : Z) :
  0 <= m ->
  (forall i, 0 <= i ->
     Z.testbit w i = true <-> exists j, 0 <= j < m /\ Z.testbit v (i + j) = true) ->
  forall i, 0 <= i ->
    Z.testbit (Z.lor w (Z.shiftr w m)) i = true
    <-> exists j, 0 <= j < 2 * m /\ Z.testbit v (i + j) = true.
Proof.
  intros Hm H i Hi.
  rewrite Z.lor_spec, Z.shiftr_spec, orb_true_iff by lia.
  rewrite (H i Hi), (H (i + m)) by lia.
  split.
  - intros [[j [Hj Hb]] | [j [Hj Hb]]].
    + exists j. split; [lia | exact Hb].
    + exists (m + j). split; [lia |]. rewrite Z.add_assoc. exact Hb.
  - intros [j [Hj Hb]].
    destruct (Z_lt_ge_dec j m) as [Hlt | Hge].
    + left. exists j. split; [lia | exact Hb].
    + right. exists (j - m). split; [lia |].
      replace (i + m + (j - m)) with (i + j) by lia. exact Hb.
Qed.

Lemma RoundDownPow2_log2 (v : Z) :
  0 < v < 2 ^ 32 -> RoundDownPow2 v = 2 ^ Z.log2 v.
Proof.
  intros Hv. unfold RoundDownPow2.
  destruct (Z.eqb_spec v 0) as [E | _]; [lia |].
  assert (Hlog : 0 <= Z.log2 v < 32).
  { split; [apply Z.log2_nonneg |]. apply Z.log2_lt_pow2; lia. }
  assert (H1 : forall i, 0 <= i ->
            Z.testbit v i = true <-> exists j, 0 <= j < 1 /\ Z.testbit v (i + j) = true).
  { intros i Hi. split.
    - intros Hb. exists 0. split; [lia |]. rewrite Z.add_0_r. exact Hb.
    - intros [j [Hj Hb]]. replace (i + j) with i in Hb by lia. exact Hb. }
  pose proof (smear_step v _ 1 ltac:(lia) H1) as H2.
  pose proof (smear_step v _ 2 ltac:(lia) H2) as H4.
  pose proof (smear_step v _ 4 ltac:(lia) H4) as H8.
  pose proof (smear_step v _ 8 ltac:(lia) H8) as H16.
  pose proof (smear_step v _ 16 ltac:(lia) H16) as H32.
  cbv zeta.
  match goal with
  | |- wrap32 (Z.shiftr ?w 1 + 1) = _ =>
      assert (Hw : w = Z.ones (Z.log2 v + 1)); [| rewrite Hw]
  end.
  { apply Z.bits_inj'. intros i Hi.
    destruct (Z_lt_ge_dec i (Z.log2 v + 1)) as [Hlt | Hge].
    - rewrite Z.ones_spec_low by lia. apply H32; [exact Hi |].
      exists (Z.log2 v - i). split; [lia |].
      replace (i + (Z.log2 v - i)) with (Z.log2 v) by lia.
      apply Z.bit_log2. lia.
    - rewrite Z.ones_spec_high by lia.
      apply not_true_is_false. intros Hb.
      apply H32 in Hb; [| exact Hi]. destruct Hb as [j [Hj Hb]].
      rewrite Z.bits_above_log2 in Hb by lia. discriminate. }
  rewrite Z.shiftr_div_pow2, Z.ones_equiv, Z.pow_add_r by lia.
  change (2 ^ 1) with 2.
  assert (Hp : 0 < 2 ^ Z.log2 v) by (apply Z.pow_pos_nonneg; lia).
  assert (Hq : 2 ^ Z.log2 v < 2 ^ 32) by (apply Z.pow_lt_mono_r; lia).
  replace (Z.pred (2 ^ Z.log2 v * 2) / 2 + 1) with (2 ^ Z.log2 v).
  - apply wrap32_small. lia.
  - unfold Z.pred. generalize dependent (2 ^ Z.log2 v). intros p _ _.
    Z.div_mod_to_equations. lia.
Qed.

(** ** Raw copies *)

Lemma memcpy_ok {A : Type} (dst : list A) (doff : Z) (src : list A) (soff n : Z) :
  0 <= doff -> 0 <= soff -> 0 <= n ->
  doff + n <= Z.of_nat (length dst) -> soff + n <= Z.of_nat (length src) ->
  memcpy dst doff src soff n =
  Some (firstn (Z.to_nat doff) dst
        ++ firstn (Z.to_nat n) (skipn (Z.to_nat soff) src)
        ++ skipn (Z.to_nat (doff + n)) dst).
Proof.
  intros H1 H2 H3 H4 H5. unfold memcpy.
  apply Z.leb_le in H1, H2, H3, H4, H5.
  rewrite H1, H2, H3, H4, H5. reflexivity.
Qed.

Lemma memcpy_inv {A : Type} (dst : list A) (doff : Z) (src : list A) (soff n : Z) d' :
  memcpy dst doff src soff n = Some d' ->
  (0 <= doff /\ 0 <= soff /\ 0 <= n /\
   doff + n <= Z.of_nat (length dst) /\ soff + n <= Z.of_nat (length src)) /\
  d' = firstn (Z.to_nat doff) dst
       ++ firstn (Z.to_nat n) (skipn (Z.to_nat soff) src)
       ++ skipn (Z.to_nat (doff + n)) dst.
Proof.
  unfold memcpy. intros H.
  destruct (0 <=? doff) eqn:E1; [| discriminate].
  destruct (0 <=? soff) eqn:E2; [| discriminate].
  destruct (0 <=? n) eqn:E3; [| discriminate].
  destruct (doff + n <=? Z.of_nat (length dst)) eqn:E4; [| discriminate].
  destruct (soff + n <=? Z.of_nat (length src)) eqn:E5; [| discriminate].
  cbn in H. injection H as <-.
  apply Z.leb_le in E1, E2, E3, E4, E5. auto 10.
Qed.

Lemma memcpy_length {A : Type} (dst : list A) (doff : Z) (src : list A) (soff n : Z) d' :
  memcpy dst doff src soff n = Some d' -> length d' = length dst.
Proof.
  intros H. apply memcpy_inv in H. destruct H as [(H1 & H2 & H3 & H4 & H5) ->].
  rewrite !length_app, !length_firstn, !length_skipn. lia.
Qed.

Lemma memcpy_nth {A : Type} (x : A) (dst : list A) (doff : Z) (src : list A) (soff n : Z) d' :
  memcpy dst doff src soff n = Some d' ->
  forall i, 0 <= i ->
    nth (Z.to_nat i) d' x =
    if (doff <=? i) && (i <? doff + n)
    then nth (Z.to_nat (soff + (i - doff))) src x
    else nth (Z.to_nat i) dst x.
Proof.
  intros H i Hi. apply memcpy_inv in H. destruct H as [(H1 & H2 & H3 & H4 & H5) ->].
  destruct (Z.leb_spec doff i) as [Hlo | Hlo]; cbn [andb].
  - rewrite app_nth2 by (rewrite length_firstn; lia).
    rewrite length_firstn.
    destruct (Z.ltb_spec i (doff + n)) as [Hhi | Hhi].
    + rewrite app_nth1 by (rewrite length_firstn, length_skipn; lia).
      rewrite nth_firstn.
      destruct (Nat.ltb_spec (Z.to_nat i - Nat.min (Z.to_nat doff) (length dst))
                             (Z.to_nat n)) as [_ | Hc]; [| lia].
      rewrite nth_skipn. f_equal. lia.
    + rewrite app_nth2 by (rewrite length_firstn, length_skipn; lia).
      rewrite nth_skipn, length_firstn, length_skipn. f_equal. lia.
  - rewrite app_nth1 by (rewrite length_firstn; lia).
    rewrite nth_firstn.
    destruct (Nat.ltb_spec (Z.to_nat i) (Z.to_nat doff)) as [_ | Hc]; [reflexivity | lia].
Qed.

(** ** Arithmetic of positions *)

Lemma mod_sub_cases (c q p : Z) :
  0 < c ->
  (q - p) mod c =
  if p mod c <=? q mod c then q mod c - p mod c else q mod c - p mod c + c.
Proof.
  intros Hc.
  pose proof (Z.div_mod q c ltac:(lia)) as Hq.
  pose proof (Z.div_mod p c ltac:(lia)) as Hp.
  pose proof (Z.mod_pos_bound q c Hc) as Bq.
  pose proof (Z.mod_pos_bound p c Hc) as Bp.
  destruct (Z.leb_spec (p mod c) (q mod c)) as [Hle | Hgt]; symmetry.
  - apply Z.mod_unique with (q := q / c - p / c); [left; lia | lia].
  - apply Z.mod_unique with (q := q / c - p / c - 1); [left; lia | lia].
Qed.

Lemma mod_add_cases (c p i : Z) :
  0 < c -> 0 <= i <= c ->
  (p + i) mod c = if p mod c + i <? c then p mod c + i else p mod c + i - c.
Proof.
  intros Hc Hi.
  pose proof (Z.div_mod p c ltac:(lia)) as Hp.
  pose proof (Z.mod_pos_bound p c Hc) as Bp.
  destruct (Z.ltb_spec (p mod c + i) c) as [Hlt | Hge]; symmetry.
  - apply Z.mod_unique with (q := p / c); [left; lia | lia].
  - apply Z.mod_unique with (q := p / c + 1); [left; lia | lia].
Qed.

Section WellFormed.

Variables (rb : ByteRingBuffer) (m : Region).
Hypothesis Hwf : wf rb m.

Let cap := capacity (header m).

Lemma wf_cap_pos : 0 < cap.
Proof.
  destruct (wf_pow2 _ _ Hwf) as [k [Hk E]]. unfold cap. rewrite E.
  apply Z.pow_pos_nonneg; lia.
Qed.

Lemma wf_cap_le : cap <= 2 ^ 31.
Proof.
  destruct (wf_pow2 _ _ Hwf) as [k [Hk E]]. unfold cap. rewrite E.
  apply Z.pow_le_mono_r; lia.
Qed.

Lemma wf_cap_divide : (cap | 2 ^ 32).
Proof.
  destruct (wf_pow2 _ _ Hwf) as [k [Hk E]]. unfold cap. rewrite E.
  exists (2 ^ (32 - k)). rewrite <- Z.pow_add_r by lia. f_equal. lia.
Qed.

Lemma wf_land (pos : Z) : Z.land pos (mask_ rb) = pos mod cap.
Proof.
  destruct (wf_pow2 _ _ Hwf) as [k [Hk E]].
  rewrite (wf_mask _ _ Hwf). fold cap. unfold cap. rewrite E.
  rewrite <- Z.land_ones by lia. f_equal.
  rewrite Z.ones_equiv. reflexivity.
Qed.

Lemma wf_first (pos : Z) : wrap32 (cap - pos mod cap) = cap - pos mod cap.
Proof.
  pose proof wf_cap_pos. pose proof wf_cap_le.
  pose proof (Z.mod_pos_bound pos cap ltac:(lia)).
  apply wrap32_small. lia.
Qed.

Lemma wrap32_mod_cap (z : Z) : wrap32 z mod cap = z mod cap.
Proof.
  unfold wrap32. apply Z.mod_mod_divide. apply wf_cap_divide.
Qed.

Lemma ring_byte_wrap32 (z : Z) : ring_byte m (wrap32 z) = ring_byte m z.
Proof. unfold ring_byte. fold cap. rewrite wrap32_mod_cap. reflexivity. Qed.

(** [ReadRaw] delivers the [len] bytes that follow position [pos]. *)
Lemma ReadRaw_spec (pos : Z) (dst : list byte) (len : Z) :
  0 <= len <= cap -> len <= Z.of_nat (length dst) ->
  exists d', ReadRaw rb m pos dst len = Some d'
    /\ length d' = length dst
    /\ forall i, 0 <= i ->
         zget d' i = if i <? len then ring_byte m (pos + i) else zget dst i.
Proof.
  intros Hlen Hdst.
  pose proof wf_cap_pos as Hc. pose proof wf_cap_le as Hc'.
  pose proof (wf_data _ _ Hwf) as Hd. fold cap in Hd.
  pose proof (Z.mod_pos_bound pos cap Hc) as Ho.
  unfold ReadRaw. rewrite wf_land. fold cap. rewrite wf_first.
  destruct (Z.geb_spec (cap - pos mod cap) len) as [Hge | Hlt].
  - rewrite memcpy_ok by lia. eexists. split; [reflexivity |].
    pose proof (memcpy_ok dst 0 (data m) (pos mod cap) len
                  ltac:(lia) ltac:(lia) ltac:(lia) ltac:(lia) ltac:(lia)) as E.
    split; [exact (memcpy_length _ _ _ _ _ _ E) |].
    intros i Hi. unfold zget. rewrite (memcpy_nth _ _ _ _ _ _ _ E i Hi).
    destruct (Z.leb_spec 0 i) as [_ | ?]; [| lia]. cbn [andb]. rewrite Z.add_0_l.
    destruct (Z.ltb_spec i len) as [Hi' | Hi']; [| reflexivity].
    unfold ring_byte, zget. fold cap. rewrite (mod_add_cases cap pos i) by lia.
    destruct (Z.ltb_spec (pos mod cap + i) cap) as [_ | ?]; [| lia].
    f_equal. f_equal. lia.
  - rewrite wrap32_small by lia.
    pose proof (memcpy_ok dst 0 (data m) (pos mod cap) (cap - pos mod cap)
                  ltac:(lia) ltac:(lia) ltac:(lia) ltac:(lia) ltac:(lia)) as E1.
    rewrite E1. cbn [bind].
    pose proof (memcpy_length _ _ _ _ _ _ E1) as L1.
    match type of E1 with _ = Some ?d => set (d1 := d) in * end.
    pose proof (memcpy_ok d1 (cap - pos mod cap) (data m) 0 (len - (cap - pos mod cap))
                  ltac:(lia) ltac:(lia) ltac:(lia) ltac:(lia) ltac:(lia)) as E2.
    rewrite E2. eexists. split; [reflexivity |].
    split; [rewrite (memcpy_length _ _ _ _ _ _ E2); exact L1 |].
    intros i Hi. unfold zget.
    rewrite (memcpy_nth _ _ _ _ _ _ _ E2 i Hi), (memcpy_nth _ _ _ _ _ _ _ E1 i Hi).
    unfold ring_byte, zget. fold cap. 
    destruct (Z.ltb_spec i len) as [Hi' | Hi'].
    + rewrite (mod_add_cases cap pos i) by lia.
      destruct (Z.leb_spec (cap - pos mod cap) i) as [Ha | Ha]; cbn [andb].
      * destruct (Z.ltb_spec i (cap - pos mod cap + (len - (cap - pos mod cap))));
          [| lia].
        destruct (Z.ltb_spec (pos mod cap + i) cap); [lia |].
        f_equal. f_equal. lia.
      * destruct (Z.leb_spec 0 i); [| lia]. cbn [andb].
        destruct (Z.ltb_spec i (0 + (cap - pos mod cap))); [| lia].
        destruct (Z.ltb_spec (pos mod cap + i) cap); [| lia].
        f_equal. f_equal. lia.
    + destruct (Z.leb_spec (cap - pos mod cap) i) as [Ha | Ha]; cbn [andb].
      * destruct (Z.ltb_spec i (cap - pos mod cap + (len - (cap - pos mod cap))));
          [lia |].
        destruct (Z.leb_spec 0 i); [| lia]. cbn [andb].
        destruct (Z.ltb_spec i (0 + (cap - pos mod cap))); [lia | reflexivity].
      * lia.
Qed.

Lemma mod_cap_intro (x r : Z) :
  (exists z, x = r + cap * z) -> 0 <= r < cap -> x mod cap = r.
Proof.
  intros [z E] Hr. symmetry. apply Z.mod_unique with (q := z); [left; exact Hr | lia].
Qed.

Lemma wrap32_cong (x : Z) : exists z, wrap32 x = x + cap * z.
Proof.
  destruct wf_cap_divide as [d Hd]. unfold wrap32.
  pose proof (Z.div_mod x (2 ^ 32) ltac:(lia)) as E.
  exists (- d * (x / 2 ^ 32)). rewrite Hd in E at 1. lia.
Qed.

Lemma ring_byte_cong (x y : Z) :
  (exists z, x = y + cap * z) -> ring_byte m x = ring_byte m y.
Proof.
  intros [z E]. unfold ring_byte. fold cap. f_equal. subst x.
  rewrite Z.mul_comm. apply Z.mod_add. pose proof wf_cap_pos. lia.
Qed.

(** [WriteRaw] stores the first [len] bytes of [src] from position [pos]
    on and leaves every other byte of the ring as it was. *)
Lemma WriteRaw_spec (pos : Z) (src : list byte) (len : Z) :
  0 <= len <= cap -> len <= Z.of_nat (length src) ->
  exists m', WriteRaw rb m pos src len = Some m'
    /\ header m' = header m
    /\ length (data m') = length (data m)
    /\ forall q,
         ring_byte m' q =
         if (q - pos) mod cap <? len then zget src ((q - pos) mod cap)
         else ring_byte m q.
Proof.
  intros Hlen Hsrc.
  pose proof wf_cap_pos as Hc. pose proof wf_cap_le as Hc'.
  pose proof (wf_data _ _ Hwf) as Hd. fold cap in Hd.
  pose proof (Z.mod_pos_bound pos cap Hc) as Ho.
  unfold WriteRaw. rewrite wf_land. fold cap. rewrite wf_first.
  destruct (Z.geb_spec (cap - pos mod cap) len) as [Hge | Hlt].
  - pose proof (memcpy_ok (data m) (pos mod cap) src 0 len
                  ltac:(lia) ltac:(lia) ltac:(lia) ltac:(lia) ltac:(lia)) as E.
    rewrite E. cbn [bind]. eexists. split; [reflexivity |].
    split; [reflexivity |].
    split; [exact (memcpy_length _ _ _ _ _ _ E) |].
    intros q. unfold ring_byte, set_data. cbn [header data]. fold cap.
    pose proof (Z.mod_pos_bound q cap Hc) as Hq.
    unfold zget. rewrite (memcpy_nth _ _ _ _ _ _ _ E (q mod cap)) by lia.
    rewrite (mod_sub_cases cap q pos Hc).
    destruct (Z.leb_spec (pos mod cap) (q mod cap)) as [Ha | Ha]; cbn [andb].
    + destruct (Z.ltb_spec (q mod cap) (pos mod cap + len));
        destruct (Z.ltb_spec (q mod cap - pos mod cap) len); try lia; reflexivity.
    + destruct (Z.ltb_spec (q mod cap - pos mod cap + cap) len); [lia | reflexivity].
  - rewrite wrap32_small by lia.
    pose proof (memcpy_ok (data m) (pos mod cap) src 0 (cap - pos mod cap)
                  ltac:(lia) ltac:(lia) ltac:(lia) ltac:(lia) ltac:(lia)) as E1.
    rewrite E1. cbn [bind].
    pose proof (memcpy_length _ _ _ _ _ _ E1) as L1.
    match type of E1 with _ = Some ?d => set (d1 := d) in * end.
    pose proof (memcpy_ok d1 0 src (cap - pos mod cap) (len - (cap - pos mod cap))
                  ltac:(lia) ltac:(lia) ltac:(lia) ltac:(lia) ltac:(lia)) as E2.
    rewrite E2. cbn [bind]. eexists. split; [reflexivity |].
    split; [reflexivity |].
    split; [cbn [set_data data]; rewrite (memcpy_length _ _ _ _ _ _ E2); exact L1 |].
    intros q. unfold ring_byte, set_data. cbn [header data]. fold cap.
    pose proof (Z.mod_pos_bound q cap Hc) as Hq.
    unfold zget.
    rewrite (memcpy_nth _ _ _ _ _ _ _ E2 (q mod cap)) by lia.
    rewrite (memcpy_nth _ _ _ _ _ _ _ E1 (q mod cap)) by lia.
    rewrite (mod_sub_cases cap q pos Hc).
    destruct (Z.leb_spec 0 (q mod cap)); [| lia]. cbn [andb].
    destruct (Z.leb_spec (pos mod cap) (q mod cap)) as [Ha | Ha]; cbn [andb].
    + destruct (Z.ltb_spec (q mod cap) (0 + (len - (cap - pos mod cap)))); [lia |].
      destruct (Z.ltb_spec (q mod cap) (pos mod cap + (cap - pos mod cap))); [| lia].
      destruct (Z.ltb_spec (q mod cap - pos mod cap) len); [| lia].
      f_equal; lia.
    + destruct (Z.ltb_spec (q mod cap) (0 + (len - (cap - pos mod cap))));
        destruct (Z.ltb_spec (q mod cap - pos mod cap + cap) len); try lia.
      * f_equal; lia.
      * reflexivity.
Qed.

End WellFormed.

(** ** Frames *)

Lemma wrap32_add_l (a b : Z) : wrap32 (wrap32 a + b) = wrap32 (a + b).
Proof. unfold wrap32. apply Zplus_mod_idemp_l. Qed.

Lemma wrap32_sub_l (a b : Z) : wrap32 (wrap32 a - b) = wrap32 (a - b).
Proof. unfold wrap32. apply Zminus_mod_idemp_l. Qed.

Lemma wrap32_sub_r (a b : Z) : wrap32 (a - wrap32 b) = wrap32 (a - b).
Proof. unfold wrap32. apply Zminus_mod_idemp_r. Qed.

Lemma zget_ext (l l' : list byte) :
  length l = length l' ->
  (forall i, 0 <= i < Z.of_nat (length l) -> zget l i = zget l' i) ->
  l = l'.
Proof.
  intros HL H. apply nth_ext with (d := Byte.x00) (d' := Byte.x00); [exact HL |].
  intros n Hn. specialize (H (Z.of_nat n) ltac:(lia)).
  unfold zget in H. rewrite Nat2Z.id in H. exact H.
Qed.

Lemma frames_size_nonneg (fs : list (list byte)) : 0 <= frames_size fs.
Proof. induction fs as [| f fs IH]; cbn [frames_size]; unfold frame_size; lia. Qed.

Lemma frames_size_app (fs gs : list (list byte)) :
  frames_size (fs ++ gs) = frames_size fs + frames_size gs.
Proof. induction fs as [| f fs IH]; cbn [frames_size app]; lia. Qed.

Lemma frames_at_ext (m m' : Region) (fs : list (list byte)) :
  forall pos,
    (forall k, 0 <= k < frames_size fs -> ring_byte m' (pos + k) = ring_byte m (pos + k)) ->
    frames_at m pos fs -> frames_at m' pos fs.
Proof.
  induction fs as [| f fs IH]; intros pos Hk Hfr; cbn [frames_at] in *; [exact I |].
  destruct Hfr as (Hp & Hd & Hr).
  pose proof (frames_size_nonneg fs) as Hn.
  cbn [frames_size] in Hk. unfold frame_size in *.
  split; [| split].
  - intros i Hi. rewrite Hk by lia. apply Hp. exact Hi.
  - intros i Hi. replace (pos + 4 + i) with (pos + (4 + i)) by lia.
    rewrite Hk by lia. replace (pos + (4 + i)) with (pos + 4 + i) by lia.
    apply Hd. exact Hi.
  - apply IH; [| exact Hr]. intros k Hk'.
    replace (pos + (4 + Z.of_nat (length f)) + k)
      with (pos + (4 + Z.of_nat (length f) + k)) by lia.
    apply Hk. lia.
Qed.

Lemma frames_at_cong (rb : ByteRingBuffer) (m : Region) (fs : list (list byte)) :
  wf rb m ->
  forall pos pos',
    (exists z, pos' = pos + capacity (header m) * z) ->
    frames_at m pos fs -> frames_at m pos' fs.
Proof.
  intros Hwf.
  induction fs as [| f fs IH]; intros pos pos' [z E] Hfr; cbn [frames_at] in *; [exact I |].
  destruct Hfr as (Hp & Hd & Hr).
  split; [| split].
  - intros i Hi. rewrite <- Hp by exact Hi.
    apply (ring_byte_cong rb m Hwf). exists z. lia.
  - intros i Hi. rewrite <- Hd by exact Hi.
    apply (ring_byte_cong rb m Hwf). exists z. lia.
  - apply (IH (pos + frame_size f)); [| exact Hr]. exists z. lia.
Qed.

Lemma frames_at_app (m : Region) (fs gs : list (list byte)) :
  forall pos,
    frames_at m pos fs -> frames_at m (pos + frames_size fs) gs ->
    frames_at m pos (fs ++ gs).
Proof.
  induction fs as [| f fs IH]; intros pos Hf Hg; cbn [frames_at frames_size app] in *.
  - rewrite Z.add_0_r in Hg. exact Hg.
  - destruct Hf as (Hp & Hd & Hr). split; [exact Hp | split; [exact Hd |]].
    apply IH; [exact Hr |]. rewrite <- Z.add_assoc. exact Hg.
Qed.

Lemma holds_free (rb : ByteRingBuffer) (m : Region) (fs : list (list byte)) :
  holds rb m fs -> WriteableBytes m = capacity (header m) - frames_size fs.
Proof.
  intros [Hwf Hocc Hfit _]. unfold WriteableBytes. unfold ReadableBytes in Hocc.
  rewrite Hocc. pose proof (frames_size_nonneg fs).
  pose proof (wf_cap_le rb m Hwf). apply wrap32_small. lia.
Qed.

(** A write that finds room appends one frame. *)
Lemma Write_accept (rb : ByteRingBuffer) (m : Region) (fs : list (list byte))
    (src : list byte) (len : Z) :
  holds rb m fs ->
  0 <= len -> len <= Z.of_nat (length src) ->
  len + 4 <= WriteableBytes m ->
  exists m', Write rb m src len = Some (true, m')
    /\ holds rb m' (fs ++ [firstn (Z.to_nat len) src])
    /\ head (header m') = wrap32 (head (header m) + len + 4)
    /\ tail (header m') = tail (header m)
    /\ capacity (header m') = capacity (header m).
Proof.
  intros Hh Hlen Hsrc Hroom.
  pose proof (holds_free rb m fs Hh) as Hfree.
  destruct Hh as [Hwf Hocc Hfit Hfr].
  pose proof (frames_size_nonneg fs) as Hn.
  pose proof (wf_cap_le rb m Hwf) as Hc'.
  pose proof (wf_cap_pos rb m Hwf) as Hc.
  set (c := capacity (header m)) in *.
  set (hd := head (header m)) in *.
  set (tl := tail (header m)) in *.
  assert (Hcong : exists z, hd = tl + frames_size fs + c * z).
  { unfold ReadableBytes in Hocc. fold hd tl in Hocc.
    destruct (wrap32_cong rb m Hwf (hd - tl)) as [z E]. fold c in E.
    exists (- z). lia. }
  destruct Hcong as [zh Ehd].
  unfold Write. rewrite (wrap32_small (len + 4)) by lia.
  destruct (Z.ltb_spec (WriteableBytes m) (len + 4)) as [? | _]; [lia |].
  destruct (WriteRaw_spec rb m Hwf hd (u32_bytes len) 4)
    as (m1 & E1 & Hh1 & Hl1 & Hb1);
    [fold c; lia | unfold u32_bytes; rewrite length_le_split; lia |].
  fold hd. rewrite E1. cbn [bind].
  assert (Hwf1 : wf rb m1).
  { destruct Hwf as [P1 P2 P3 P4 P5].
    constructor; rewrite ?Hh1, ?Hl1; assumption. }
  destruct (WriteRaw_spec rb m1 Hwf1 (wrap32 (hd + 4)) src len)
    as (m2 & E2 & Hh2 & Hl2 & Hb2);
    [rewrite Hh1; fold c; lia | exact Hsrc |].
  rewrite E2. cbn [bind]. rewrite Hh1 in Hb2, Hh2. fold c in Hb1, Hb2.
  destruct (wrap32_cong rb m Hwf (hd + 4)) as [z4 E4]. fold c in E4.
  eexists. split; [reflexivity |].
  assert (Hflen : Z.of_nat (length (firstn (Z.to_nat len) src)) = len).
  { rewrite length_firstn. lia. }
  assert (Hring : forall q,
            ring_byte (set_head m2 (wrap32 (hd + (len + 4)))) q = ring_byte m2 q).
  { intros q. unfold ring_byte, set_head. cbn [header data capacity].
    rewrite Hh2. reflexivity. }
  split; [| split; [| split]].
  - constructor.
    + destruct Hwf as [P1 P2 P3 P4 P5].
      constructor; unfold set_head; cbn [header data head tail capacity];
        rewrite ?Hh2, ?Hl2, ?Hl1; try assumption.
      apply wrap32_range.
    + unfold ReadableBytes, set_head. cbn [header head tail]. rewrite Hh2. fold tl.
      rewrite wrap32_sub_l, frames_size_app. cbn [frames_size]. unfold frame_size.
      rewrite Hflen.
      replace (hd + (len + 4) - tl) with ((hd - tl) + (len + 4)) by lia.
      rewrite <- wrap32_add_l. unfold ReadableBytes in Hocc. fold hd tl in Hocc.
      rewrite Hocc. rewrite wrap32_small by lia. lia.
    + unfold set_head. cbn [header capacity]. rewrite Hh2. fold c.
      rewrite frames_size_app. cbn [frames_size]. unfold frame_size.
      rewrite Hflen. lia.
    + unfold set_head at 2. cbn [header tail]. rewrite Hh2. fold tl.
      apply frames_at_app.
      * apply (frames_at_ext m); [| exact Hfr].
        intros k Hk. rewrite Hring, Hb2, Hb1.
        assert (M1 : (tl + k - wrap32 (hd + 4)) mod c = k - frames_size fs - 4 + c).
        { apply (mod_cap_intro m).
          - exists (- zh - z4 - 1). fold c. lia.
          - fold c. lia. }
        assert (M2 : (tl + k - hd) mod c = k - frames_size fs + c).
        { apply (mod_cap_intro m).
          - exists (- zh - 1). fold c. lia.
          - fold c. lia. }
        rewrite M1, M2.
        destruct (Z.ltb_spec (k - frames_size fs - 4 + c) len); [lia |].
        destruct (Z.ltb_spec (k - frames_size fs + c) 4); [lia | reflexivity].
      * cbn [frames_at]. split; [| split; [| exact I]].
        -- intros i Hi. rewrite Hflen, Hring, Hb2, Hb1.
           assert (M1 : (tl + frames_size fs + i - wrap32 (hd + 4)) mod c = i - 4 + c).
           { apply (mod_cap_intro m).
             - exists (- zh - z4 - 1). fold c. lia.
             - fold c. lia. }
           assert (M2 : (tl + frames_size fs + i - hd) mod c = i).
           { apply (mod_cap_intro m).
             - exists (- zh). fold c. lia.
             - fold c. lia. }
           rewrite M1, M2.
           destruct (Z.ltb_spec (i - 4 + c) len); [lia |].
           destruct (Z.ltb_spec i 4); [reflexivity | lia].
        -- intros i Hi. rewrite Hflen in Hi. rewrite Hring, Hb2.
           assert (M1 : (tl + frames_size fs + 4 + i - wrap32 (hd + 4)) mod c = i).
           { apply (mod_cap_intro m).
             - exists (- zh - z4). fold c. lia.
             - fold c. lia. }
           rewrite M1.
           destruct (Z.ltb_spec i len); [| lia].
           unfold zget. rewrite nth_firstn.
           destruct (Nat.ltb_spec (Z.to_nat i) (Z.to_nat len)); [reflexivity | lia].
  - unfold set_head. cbn [header head]. f_equal. lia.
  - unfold set_head. cbn [header tail]. rewrite Hh2. reflexivity.
  - unfold set_head. cbn [header capacity]. rewrite Hh2. reflexivity.
Qed.

Lemma le_combine_u32_bytes (w : Z) : 0 <= w < 2 ^ 32 -> le_combine (u32_bytes w) = w.
Proof.
  intros Hw. unfold u32_bytes. rewrite le_combine_split.
  change (2 ^ (Z.of_nat 4 * 8)) with (2 ^ 32). apply Z.mod_small. exact Hw.
Qed.

Section Front.

Variables (rb : ByteRingBuffer) (m : Region) (f : list byte) (fs : list (list byte)).
Hypothesis Hh : holds rb m (f :: fs).

Let L := Z.of_nat (length f).
Let tl := tail (header m).
Let c := capacity (header m).

Lemma front_bounds : 0 <= L /\ L + 4 + frames_size fs <= c /\ c <= 2 ^ 31.
Proof.
  destruct Hh as [Hwf Hocc Hfit Hfr]. cbn [frames_size] in Hfit.
  unfold frame_size in Hfit. pose proof (wf_cap_le rb m Hwf).
  unfold L, c. lia.
Qed.

Lemma front_available : ReadableBytes m = L + 4 + frames_size fs.
Proof.
  destruct Hh as [Hwf Hocc Hfit Hfr]. rewrite Hocc. cbn [frames_size].
  unfold frame_size, L. lia.
Qed.

(** The four bytes at [tail] are the length of the oldest frame. *)
Lemma front_prefix : ReadRaw rb m tl (u32_bytes 0) 4 = Some (u32_bytes L).
Proof.
  pose proof front_bounds as (B1 & B2 & B3).
  pose proof (frames_size_nonneg fs) as Hn.
  destruct Hh as [Hwf Hocc Hfit Hfr].
  destruct (ReadRaw_spec rb m Hwf tl (u32_bytes 0) 4) as (d & E & Hl & Hb);
    [fold c; lia | unfold u32_bytes; rewrite length_le_split; lia |].
  rewrite E. f_equal.
  unfold u32_bytes in Hl. rewrite length_le_split in Hl.
  apply zget_ext.
  - unfold u32_bytes. rewrite length_le_split. exact Hl.
  - intros i Hi. rewrite Hl in Hi. rewrite Hb by lia.
    destruct (Z.ltb_spec i 4); [| lia].
    cbn [frames_at] in Hfr. destruct Hfr as (Hp & _ & _).
    apply Hp. lia.
Qed.

(** [tail] after the oldest frame has been consumed. *)
Let tl' := wrap32 (wrap32 (tl + L) + 4).

Lemma front_pop : holds rb (set_tail m tl') fs.
Proof.
  pose proof front_bounds as (B1 & B2 & B3).
  pose proof front_available as Ha.
  pose proof (frames_size_nonneg fs) as Hn.
  destruct Hh as [Hwf Hocc Hfit Hfr].
  constructor.
  - destruct Hwf as [P1 P2 P3 P4 P5].
    constructor; unfold set_tail; cbn [header data head tail capacity]; try assumption.
    apply wrap32_range.
  - unfold ReadableBytes, set_tail. cbn [header head tail]. unfold tl'.
    rewrite wrap32_add_l, wrap32_sub_r.
    unfold ReadableBytes in Ha. fold tl in Ha.
    replace (head (header m) - (tl + L + 4))
      with ((head (header m) - tl) - (L + 4)) by lia.
    rewrite <- wrap32_sub_l, Ha. rewrite wrap32_small by lia. lia.
  - unfold set_tail. cbn [header capacity]. fold c. lia.
  - unfold set_tail at 2. cbn [header tail].
    cbn [frames_at] in Hfr. destruct Hfr as (_ & _ & Hr). fold tl in Hr.
    assert (Hr' : frames_at (set_tail m tl') (tl + frame_size f) fs).
    { apply (frames_at_ext m); [| exact Hr]. intros k _. reflexivity. }
    assert (Hwf' : wf rb (set_tail m tl')).
    { destruct Hwf as [P1 P2 P3 P4 P5].
      constructor; unfold set_tail; cbn [header data head tail capacity]; try assumption.
      apply wrap32_range. }
    apply (frames_at_cong rb _ fs Hwf' (tl + frame_size f)); [| exact Hr'].
    unfold set_tail. cbn [header capacity]. unfold tl'.
    destruct (wrap32_cong rb m Hwf (tl + L)) as [z1 E1].
    destruct (wrap32_cong rb m Hwf (wrap32 (tl + L) + 4)) as [z2 E2].
    exists (z1 + z2). unfold frame_size. fold L. lia.
Qed.

(** A frame that fits the caller's buffer is delivered. *)
Lemma Read_deliver (out : list byte) (max_len : Z) :
  1 <= L -> L <= max_len -> L <= Z.of_nat (length out) ->
  Read rb m out max_len
  = Some (L, f ++ skipn (length f) out, set_tail m tl')
  /\ holds rb (set_tail m tl') fs.
Proof.
  intros H1 Hmax Hout. split; [| exact front_pop].
  pose proof front_bounds as (B1 & B2 & B3).
  pose proof front_available as Ha.
  pose proof (frames_size_nonneg fs) as Hn.
  unfold Read. unfold ReadableBytes in Ha. rewrite Ha.
  destruct (Z.ltb_spec (L + 4 + frames_size fs) 4); [lia |].
  fold tl. rewrite front_prefix. cbn [bind].
  rewrite le_combine_u32_bytes by lia.
  destruct (Z.eqb_spec L 0); [lia |]. cbn [orb].
  rewrite (wrap32_small (L + 4)) by lia.
  destruct (Z.ltb_spec (L + 4 + frames_size fs) (L + 4)); [lia |].
  destruct (Z.gtb_spec L max_len); [lia |].
  destruct Hh as [Hwf Hocc Hfit Hfr].
  destruct (ReadRaw_spec rb m Hwf (wrap32 (tl + 4)) out L) as (d & E & Hl & Hb);
    [fold c; lia | exact Hout |].
  rewrite E. cbn [bind]. fold tl'. f_equal. f_equal. f_equal.
  apply zget_ext.
  - rewrite Hl, length_app, length_skipn. lia.
  - intros i Hi. rewrite Hb by lia.
    destruct (Z.ltb_spec i L) as [Hi' | Hi'].
    + replace (zget (f ++ skipn (length f) out) i) with (zget f i)
        by (unfold zget; rewrite app_nth1 by lia; reflexivity).
      cbn [frames_at] in Hfr. destruct Hfr as (_ & Hd & _).
      fold tl in Hd. rewrite <- (Hd i) by (fold L; lia).
      apply (ring_byte_cong rb m Hwf).
      destruct (wrap32_cong rb m Hwf (tl + 4)) as [z E4].
      exists z. lia.
    + unfold zget. rewrite app_nth2 by lia. rewrite nth_skipn. f_equal. lia.
Qed.

(** A frame longer than the caller's buffer is dropped. *)
Lemma Read_skip (out : list byte) (max_len : Z) :
  1 <= L -> max_len < L ->
  Read rb m out max_len = Some (0, out, set_tail m tl')
  /\ holds rb (set_tail m tl') fs.
Proof.
  intros H1 Hmax. split; [| exact front_pop].
  pose proof front_bounds as (B1 & B2 & B3).
  pose proof front_available as Ha.
  pose proof (frames_size_nonneg fs) as Hn.
  unfold Read. unfold ReadableBytes in Ha. rewrite Ha.
  destruct (Z.ltb_spec (L + 4 + frames_size fs) 4); [lia |].
  fold tl. rewrite front_prefix. cbn [bind].
  rewrite le_combine_u32_bytes by lia.
  destruct (Z.eqb_spec L 0); [lia |]. cbn [orb].
  rewrite (wrap32_small (L + 4)) by lia.
  destruct (Z.ltb_spec (L + 4 + frames_size fs) (L + 4)); [lia |].
  destruct (Z.gtb_spec L max_len); [| lia].
  reflexivity.
Qed.

(** A frame of length zero stops the reader for good. *)
Lemma Read_stuck (out : list byte) (max_len : Z) :
  L = 0 -> Read rb m out max_len = Some (0, out, m).
Proof.
  intros H0.
  pose proof front_bounds as (B1 & B2 & B3).
  pose proof front_available as Ha.
  pose proof (frames_size_nonneg fs) as Hn.
  unfold Read. unfold ReadableBytes in Ha. rewrite Ha.
  destruct (Z.ltb_spec (L + 4 + frames_size fs) 4); [lia |].
  fold tl. rewrite front_prefix. cbn [bind].
  rewrite le_combine_u32_bytes by lia.
  destruct (Z.eqb_spec L 0); [| lia]. reflexivity.
Qed.

End Front.

Lemma Read_empty (rb : ByteRingBuffer) (m : Region) (out : list byte) (max_len : Z) :
  ReadableBytes m < 4 -> Read rb m out max_len = Some (0, out, m).
Proof.
  intros H. unfold Read. unfold ReadableBytes in H.
  destruct (Z.ltb_spec (wrap32 (head (header m) - tail (header m))) 4); [reflexivity | lia].
Qed.

(** ** Sequences of writes and reads *)

Lemma holds_view (rb rb' : ByteRingBuffer) (m : Region) (fs : list (list byte)) :
  mask_ rb' = mask_ rb -> holds rb m fs -> holds rb' m fs.
Proof.
  intros E [[P1 P2 P3 P4 P5] Hocc Hfit Hfr].
  constructor; try assumption. constructor; try assumption. congruence.
Qed.

Lemma write_seq_accepted (rb : ByteRingBuffer) (msgs : list (list byte)) :
  forall m fs flags m1,
    holds rb m fs ->
    Forall (fun p => Z.of_nat (length p) + 4 < 2 ^ 32) msgs ->
    write_seq rb m msgs = Some (flags, m1) ->
    Forall (eq true) flags ->
    holds rb m1 (fs ++ msgs).
Proof.
  induction msgs as [| p msgs IH]; intros m fs flags m1 Hh Hok Hw Hacc.
  - cbn in Hw. injection Hw as <- <-. rewrite app_nil_r. exact Hh.
  - cbn [write_seq] in Hw. inversion Hok as [| ? ? Hp Hok']; subst.
    destruct (Z.ltb_spec (WriteableBytes m) (Z.of_nat (length p) + 4)) as [Hfull | Hroom].
    + unfold Write in Hw. rewrite (wrap32_small (Z.of_nat (length p) + 4)) in Hw by lia.
      destruct (Z.ltb_spec (WriteableBytes m) (Z.of_nat (length p) + 4)); [| lia].
      cbn [bind fst snd] in Hw.
      destruct (write_seq rb m msgs) as [[fl mm] |]; cbn [bind] in Hw; [| discriminate].
      injection Hw as <- <-. inversion Hacc; discriminate.
    + destruct (Write_accept rb m fs p (Z.of_nat (length p)) Hh
                  ltac:(lia) ltac:(lia) Hroom) as (m' & E & Hh' & _).
      rewrite E in Hw. cbn [bind fst snd] in Hw.
      destruct (write_seq rb m' msgs) as [[fl mm] |] eqn:Ew; cbn [bind] in Hw;
        [| discriminate].
      injection Hw as <- <-. inversion Hacc; subst.
      rewrite Nat2Z.id, firstn_all in Hh'.
      replace (fs ++ p :: msgs) with ((fs ++ [p]) ++ msgs)
        by (rewrite <- app_assoc; reflexivity).
      apply (IH m' (fs ++ [p]) fl mm); assumption.
Qed.

Lemma read_seq_delivers (rb : ByteRingBuffer) (msgs : list (list byte)) :
  forall m bufs,
    holds rb m msgs ->
    Forall (fun p => p <> []) msgs ->
    Forall2 (fun p b => Z.of_nat (length p) <= snd b
                        /\ (length p <= length (fst b))%nat) msgs bufs ->
    exists m2, read_seq rb m bufs = Some (map (fun pb => delivered (fst pb) (snd pb))
                                              (combine msgs bufs), m2)
      /\ holds rb m2 [].
Proof.
  induction msgs as [| p msgs IH]; intros m bufs Hh Hne Hb.
  - inversion Hb; subst. exists m. split; [reflexivity | exact Hh].
  - inversion Hb as [| ? b ? bufs' [Hmax Hout] Hb']; subst.
    inversion Hne as [| ? ? Hp Hne']; subst.
    assert (H1 : 1 <= Z.of_nat (length p)) by (destruct p; [congruence | cbn; lia]).
    destruct (Read_deliver rb m p msgs Hh (fst b) (snd b) H1 Hmax ltac:(lia)) as [E Hh'].
    destruct (IH _ bufs' Hh' Hne' Hb') as (m2 & E2 & Hh2).
    exists m2. split; [| exact Hh2].
    cbn [read_seq combine map]. rewrite E. cbn [bind fst snd]. rewrite E2.
    reflexivity.
Qed.

(** X20.  Payloads of at least one byte come back as they were written,
    in order and through either view of the region, whatever the positions
    of [head] and [tail] at the start. *)
Theorem roundtrip_nonempty (prod cons : ByteRingBuffer) (m : Region)
    (msgs : list (list byte)) (bufs : list (list byte * Z))
    (flags : list bool) (m1 : Region) :
  wf prod m -> mask_ cons = mask_ prod ->
  head (header m) = tail (header m) ->
  Forall (fun p => p <> [] /\ Z.of_nat (length p) + 4 < 2 ^ 32) msgs ->
  write_seq prod m msgs = Some (flags, m1) ->
  Forall (eq true) flags ->
  Forall2 (fun p b => Z.of_nat (length p) <= snd b
                      /\ (length p <= length (fst b))%nat) msgs bufs ->
  exists m2,
    read_seq cons m1 bufs
    = Some (map (fun pb => delivered (fst pb) (snd pb)) (combine msgs bufs), m2)
    /\ head (header m2) = tail (header m2).
Proof.
  intros Hwf Hmask Hempty Hok Hw Hacc Hb.
  assert (Hh : holds prod m []).
  { constructor; [exact Hwf | | | exact I].
    - unfold ReadableBytes. rewrite Hempty, Z.sub_diag. reflexivity.
    - cbn. pose proof (wf_cap_pos prod m Hwf). lia. }
  assert (Hh1 : holds prod m1 msgs).
  { apply (write_seq_accepted prod msgs m [] flags m1 Hh); [| exact Hw | exact Hacc].
    eapply Forall_impl; [| exact Hok]. intros p [_ H]. exact H. }
  apply (holds_view prod cons) in Hh1; [| exact Hmask].
  destruct (read_seq_delivers cons msgs m1 bufs Hh1) as (m2 & E & Hh2);
    [eapply Forall_impl; [| exact Hok]; intros p [H _]; exact H | exact Hb |].
  exists m2. split; [exact E |].
  destruct Hh2 as [Hwf2 Hocc2 _ _]. cbn in Hocc2. unfold ReadableBytes in Hocc2.
  pose proof (wf_head _ _ Hwf2). pose proof (wf_tail _ _ Hwf2).
  unfold wrap32 in Hocc2. 
  destruct (Z.eq_dec (head (header m2)) (tail (header m2))) as [E' | N]; [exact E' |].
  exfalso.
  destruct (Z_lt_ge_dec (head (header m2)) (tail (header m2))).
  - rewrite <- (Z.mod_add _ 1) in Hocc2 by lia.
    rewrite Z.mod_small in Hocc2 by lia. lia.
  - rewrite Z.mod_small in Hocc2 by lia. lia.
Qed.

(** Two payloads written while [head] passes 2^32 and the end of the data
    area, and read back. *)
Lemma roundtrip_nonempty_example :
  write_seq view16 late16 [[Byte.x41; Byte.x42]; [Byte.x43]]
  = Some ([true; true], late16_written)
  /\ exists m2,
       read_seq view16 late16_written [(zeros 4, 4); (zeros 4, 4)]
       = Some ([(2, [Byte.x41; Byte.x42; Byte.x00; Byte.x00]);
                (1, [Byte.x43; Byte.x00; Byte.x00; Byte.x00])], m2)
       /\ head (header m2) = tail (header m2).
Proof.
  assert (Hw : write_seq view16 late16 [[Byte.x41; Byte.x42]; [Byte.x43]]
               = Some ([true; true], late16_written)) by (vm_compute; reflexivity).
  split; [exact Hw |].
  apply (roundtrip_nonempty view16 view16 late16
           [[Byte.x41; Byte.x42]; [Byte.x43]] [(zeros 4, 4); (zeros 4, 4)]
           [true; true] late16_written).
  - constructor; cbn [late16 header data capacity head tail mask_ view16].
    + exists 4. split; [lia | reflexivity].
    + reflexivity.
    + cbn. lia.
    + lia.
    + lia.
  - reflexivity.
  - reflexivity.
  - repeat constructor; discriminate.
  - exact Hw.
  - repeat constructor.
  - repeat constructor; cbn; lia.
Defined.

(** ** The constructor *)

Lemma pow2_log2_largest (x : Z) : 0 < x -> largest_pow2_le (2 ^ Z.log2 x) x.
Proof.
  intros Hx. pose proof (Z.log2_spec x Hx) as [Hlo Hhi].
  pose proof (Z.log2_nonneg x) as Hk.
  split; [exists (Z.log2 x); split; [exact Hk | reflexivity] |].
  split; [exact Hlo |].
  intros j Hj Hle. apply Z.pow_le_mono_r; [lia |].
  assert (Hlt : 2 ^ j < 2 ^ Z.succ (Z.log2 x)) by lia.
  apply Z.pow_lt_mono_r_iff in Hlt; lia.
Qed.

Lemma new_producer_capacity (m : Region) (total_size : Z) :
  0 < wrap32 (total_size - kHeaderSize) ->
  Capacity (snd (ByteRingBuffer_new m total_size true))
  = 2 ^ Z.log2 (wrap32 (total_size - kHeaderSize)).
Proof.
  intros H. unfold ByteRingBuffer_new, Capacity. cbn [snd header capacity].
  apply RoundDownPow2_log2. pose proof (wrap32_range (total_size - kHeaderSize)). lia.
Qed.

Lemma new_producer_holds (m : Region) (total_size : Z) :
  0 < wrap32 (total_size - kHeaderSize) <= Z.of_nat (length (data m)) ->
  holds (fst (ByteRingBuffer_new m total_size true))
        (snd (ByteRingBuffer_new m total_size true)) [].
Proof.
  intros [Hpos Hfit].
  pose proof (new_producer_capacity m total_size Hpos) as Hcap.
  pose proof (wrap32_range (total_size - kHeaderSize)) as Hr.
  pose proof (Z.log2_spec _ Hpos) as [Hlo Hhi].
  pose proof (Z.log2_nonneg (wrap32 (total_size - kHeaderSize))) as Hk.
  assert (Hk' : Z.log2 (wrap32 (total_size - kHeaderSize)) < 32)
    by (apply Z.log2_lt_pow2; lia).
  unfold Capacity in Hcap.
  unfold ByteRingBuffer_new in *. cbn [fst snd header data capacity] in *.
  assert (Hp : 0 < 2 ^ Z.log2 (wrap32 (total_size - kHeaderSize)))
    by (apply Z.pow_pos_nonneg; lia).
  constructor; [constructor | | |]; cbn [header data head tail capacity mask_].
  - exists (Z.log2 (wrap32 (total_size - kHeaderSize))). split; [lia | exact Hcap].
  - rewrite Hcap. apply wrap32_small. lia.
  - rewrite Hcap. lia.
  - lia.
  - lia.
  - reflexivity.
  - cbn [frames_size]. rewrite Hcap. lia.
  - exact I.
Qed.

(** C5.  A producer-mode constructor over a region of [total_size] bytes,
    [total_size - 16 >= 4], leaves [Capacity()] at the largest power of two
    that does not exceed [total_size - 16] and [head], [tail] and [reserved]
    at zero; and a producer facade asked for a data area of [R >= 4] bytes
    reports, once its region is mapped, the largest power of two that does
    not exceed [R]. *)
Theorem capacity_rounding :
  (forall (m : Region) (total_size : Z),
     total_size < 2 ^ 32 -> 4 <= total_size - kHeaderSize ->
     let m' := snd (ByteRingBuffer_new m total_size true) in
     largest_pow2_le (Capacity m') (total_size - kHeaderSize)
     /\ head (header m') = 0 /\ tail (header m') = 0 /\ reserved (header m') = 0)
  /\ (forall (env : PosixEnv) (m : Region) (name : list ascii) (R : Z)
             (p : ShmProducer) (m' : Region),
        4 <= R < 2 ^ 32 ->
        ShmProducer_new env m name R = Some (p, m') ->
        Valid (prod_shm_ p) = true ->
        largest_pow2_le (ShmProducer_Capacity p m') R).
Proof.
  split.
  - intros m total_size Hhi Hlo m'. unfold kHeaderSize in *.
    assert (Hw : wrap32 (total_size - 16) = total_size - 16)
      by (apply wrap32_small; lia).
    split; [| split; [| split]]; try reflexivity.
    unfold m'. rewrite new_producer_capacity by (unfold kHeaderSize; lia).
    unfold kHeaderSize. rewrite Hw. apply pow2_log2_largest. lia.
  - intros env m name R p m' HR Hnew Hvalid.
    unfold ShmProducer_new in Hnew.
    destruct (SharedMemory_new env name (wrap32 (R + kHeaderSize)) true true)
      as [shm |] eqn:Eshm; cbn [bind] in Hnew; [| discriminate].
    assert (Hsize : Size shm = wrap32 (R + kHeaderSize)).
    { unfold SharedMemory_new in Eshm.
      destruct (NormalizeName _ name) as [nm |]; cbn [bind] in Eshm; [| discriminate].
      unfold CreateOrOpen, PosixCreate, MapRegion in Eshm.
      destruct (shm_create_ok env (c_str nm)); cbn [negb] in Eshm;
        [| injection Eshm as <-; reflexivity].
      destruct (ftruncate_ok env (c_str nm) _); cbn [negb] in Eshm;
        [| injection Eshm as <-; reflexivity].
      destruct (mmap_ok env (c_str nm) _); injection Eshm as <-; reflexivity. }
    destruct (Valid shm) eqn:Ev.
    + unfold ByteRingBuffer_new in Hnew. injection Hnew as <- <-.
      unfold ShmProducer_Capacity, Capacity. cbn [prod_ring_ header capacity].
      rewrite Hsize, wrap32_idem.
      rewrite wrap32_sub_l. replace (R + kHeaderSize - kHeaderSize) with R by lia.
      rewrite (wrap32_small R) by lia.
      rewrite RoundDownPow2_log2 by lia. apply pow2_log2_largest. lia.
    + injection Hnew as <- <-. cbn [prod_shm_] in Hvalid. congruence.
Qed.

Lemma capacity_rounding_witness :
  largest_pow2_le (Capacity (snd (ByteRingBuffer_new (blank 100) 116 true))) 100
  /\ Capacity (snd (ByteRingBuffer_new (blank 100) 116 true)) = 64
  /\ exists p m',
       ShmProducer_new env_ok (blank 33) (list_ascii_of_string "ring") 33 = Some (p, m')
       /\ ShmProducer_Capacity p m' = 32
       /\ largest_pow2_le (ShmProducer_Capacity p m') 33.
Proof.
  split; [| split].
  - apply (proj1 capacity_rounding (blank 100) 116); [reflexivity | discriminate].
  - reflexivity.
  - eexists. eexists. split; [reflexivity |]. split; [reflexivity |].
    apply (proj2 capacity_rounding env_ok (blank 33) (list_ascii_of_string "ring") 33).
    + split; [discriminate | reflexivity].
    + reflexivity.
    + reflexivity.
Defined.

(** ** Rejection of a write *)

Lemma Write_no_room (rb : ByteRingBuffer) (m : Region) (src : list byte) (len : Z) :
  (WriteableBytes m <? wrap32 (len + 4)) = true ->
  Write rb m src len = Some (false, m).
Proof. intros H. unfold Write. rewrite H. reflexivity. Qed.

(** If [WriteableBytes()] is below the 32-bit sum [len + 4] that [Write]
    computes, [Write] returns false and the region (head, tail and every
    byte of the data area) is as it was. *)
Theorem Write_full_rejected (rb : ByteRingBuffer) (m : Region) (src : list byte) (len : Z) :
  WriteableBytes m < wrap32 (len + 4) ->
  Write rb m src len = Some (false, m).
Proof.
  intros H. apply Write_no_room. apply Z.ltb_lt. exact H.
Qed.

Lemma Write_full_rejected_witness :
  WriteableBytes full16 < wrap32 (1 + 4)
  /\ Write view16 full16 [Byte.x42] 1 = Some (false, full16).
Proof.
  split; [reflexivity |].
  apply Write_full_rejected. reflexivity.
Defined.

(** ** Reads that deliver nothing *)

Lemma wrap32_add_r (a b : Z) : wrap32 (a + wrap32 b) = wrap32 (a + b).
Proof. unfold wrap32. apply Zplus_mod_idemp_r. Qed.

Lemma length_prefix_nonneg (rb : ByteRingBuffer) (m : Region) (L : Z) :
  length_prefix rb m = Some L -> 0 <= L.
Proof.
  unfold length_prefix. destruct (ReadRaw rb m _ _ 4) as [lenbuf |]; cbn [bind];
    [| discriminate].
  intros E. injection E as <-. apply le_combine_bound.
Qed.

(** C6.  When the frame at [tail] is complete and its payload length [L]
    exceeds [max_len], [Read] returns 0, leaves the caller's buffer as it
    was and moves [tail] forward by [L + 4]: the frame is gone. *)
Theorem Read_oversized_skipped (rb : ByteRingBuffer) (m : Region)
    (out : list byte) (max_len L : Z) :
  length_prefix rb m = Some L ->
  L + 4 <= ReadableBytes m ->
  0 <= max_len < L ->
  Read rb m out max_len
  = Some (0, out, set_tail m (wrap32 (tail (header m) + L + 4))).
Proof.
  intros Hp Hfull Hmax.
  pose proof (length_prefix_nonneg rb m L Hp) as HL.
  unfold ReadableBytes in Hfull.
  pose proof (wrap32_range (head (header m) - tail (header m))) as Hr.
  unfold Read. unfold length_prefix in Hp.
  destruct (Z.ltb_spec (wrap32 (head (header m) - tail (header m))) 4); [lia |].
  destruct (ReadRaw rb m _ _ 4) as [lenbuf |]; cbn [bind] in *; [| discriminate].
  injection Hp as Hp. rewrite Hp.
  destruct (Z.eqb_spec L 0); [lia |]. cbn [orb].
  rewrite (wrap32_small (L + 4)) by lia.
  destruct (Z.ltb_spec (wrap32 (head (header m) - tail (header m))) (L + 4)); [lia |].
  destruct (Z.gtb_spec L max_len); [| lia].
  rewrite wrap32_add_l. reflexivity.
Qed.

(** A ring of 16 bytes that holds the frame of a 12-byte payload. *)
Lemma Read_oversized_skipped_witness :
  length_prefix view16 full16 = Some 12
  /\ 12 + 4 <= ReadableBytes full16
  /\ Read view16 full16 (zeros 4) 4 = Some (0, zeros 4, set_tail full16 16)
  /\ HasData (set_tail full16 16) = false.
Proof.
  split; [reflexivity |]. split; [discriminate |]. split; [| reflexivity].
  apply (Read_oversized_skipped view16 full16 (zeros 4) 4 12).
  - reflexivity.
  - discriminate.
  - split; [discriminate | reflexivity].
Defined.



(** ** Occupancy *)

Lemma WriteRaw_header (rb : ByteRingBuffer) (m : Region) (pos : Z) (src : list byte)
    (len : Z) (m' : Region) :
  WriteRaw rb m pos src len = Some m' -> header m' = header m.
Proof.
  unfold WriteRaw.
  destruct (_ >=? len).
  - destruct (memcpy _ _ _ _ _); cbn [bind]; [| discriminate].
    intros E. injection E as <-. reflexivity.
  - destruct (memcpy _ _ _ _ _); cbn [bind]; [| discriminate].
    destruct (memcpy _ _ _ _ _); cbn [bind]; [| discriminate].
    intros E. injection E as <-. reflexivity.
Qed.

Lemma Write_occupancy (rb : ByteRingBuffer) (m : Region) (src : list byte) (len : Z)
    (b : bool) (m' : Region) :
  occupancy_ok m ->
  Write rb m src len = Some (b, m') ->
  occupancy_ok m'
  /\ (b = false -> m' = m)
  /\ (b = true ->
      head (header m') = wrap32 (head (header m) + len + 4)
      /\ tail (header m') = tail (header m)
      /\ ReadableBytes m' = ReadableBytes m + wrap32 (len + 4)).
Proof.
  intros [Hcap Hocc] Hw. unfold Write in Hw.
  assert (Hfree : WriteableBytes m = capacity (header m) - ReadableBytes m).
  { unfold WriteableBytes, ReadableBytes in *. apply wrap32_small. lia. }
  destruct (Z.ltb_spec (WriteableBytes m) (wrap32 (len + 4))) as [Hfull | Hroom].
  - injection Hw as <- <-. split; [split; assumption |].
    split; [reflexivity | discriminate].
  - destruct (WriteRaw rb m _ _ 4) as [m1 |] eqn:E1; cbn [bind] in Hw; [| discriminate].
    destruct (WriteRaw rb m1 _ src len) as [m2 |] eqn:E2; cbn [bind] in Hw;
      [| discriminate].
    injection Hw as <- <-.
    apply WriteRaw_header in E1, E2. rewrite E1 in E2.
    pose proof (wrap32_range (len + 4)) as Ht.
    assert (Hnew : ReadableBytes (set_head m2 (wrap32 (head (header m) + wrap32 (len + 4))))
                   = ReadableBytes m + wrap32 (len + 4)).
    { unfold ReadableBytes in *. unfold set_head. cbn [header head tail]. rewrite E2.
      rewrite wrap32_sub_l.
      replace (head (header m) + wrap32 (len + 4) - tail (header m))
        with ((head (header m) - tail (header m)) + wrap32 (len + 4)) by lia.
      rewrite <- wrap32_add_l. apply wrap32_small. lia. }
    split; [| split; [discriminate |]].
    + unfold occupancy_ok. rewrite Hnew.
      unfold set_head. cbn [header capacity]. rewrite E2. lia.
    + intros _. split; [| split; [| exact Hnew]].
      * unfold set_head. cbn [header head]. rewrite wrap32_add_r. f_equal. lia.
      * unfold set_head. cbn [header tail]. rewrite E2. reflexivity.
Qed.

Lemma Read_occupancy (rb : ByteRingBuffer) (m : Region) (out : list byte) (max_len : Z)
    (n : Z) (out' : list byte) (m' : Region) :
  occupancy_ok m ->
  Read rb m out max_len = Some (n, out', m') ->
  occupancy_ok m'
  /\ (m' = m
      \/ exists d, 0 <= d <= ReadableBytes m
           /\ m' = set_tail m (wrap32 (tail (header m) + d))
           /\ ReadableBytes m' = ReadableBytes m - d).
Proof.
  intros [Hcap Hocc] Hr. unfold Read in Hr.
  assert (Hgo : forall t, 0 <= t <= ReadableBytes m ->
            ReadableBytes (set_tail m (wrap32 (tail (header m) + t)))
            = ReadableBytes m - t).
  { intros t Ht. unfold ReadableBytes in *. unfold set_tail. cbn [header head tail].
    rewrite wrap32_sub_r.
    replace (head (header m) - (tail (header m) + t))
      with ((head (header m) - tail (header m)) - t) by lia.
    rewrite <- wrap32_sub_l. apply wrap32_small. lia. }
  assert (Hadv : forall msg_len,
            wrap32 (msg_len + 4) <= ReadableBytes m ->
            let m2 := set_tail m (wrap32 (wrap32 (tail (header m) + msg_len) + 4)) in
            occupancy_ok m2
            /\ (m2 = m
                \/ exists d, 0 <= d <= ReadableBytes m
                     /\ m2 = set_tail m (wrap32 (tail (header m) + d))
                     /\ ReadableBytes m2 = ReadableBytes m - d)).
  { intros msg_len Hle m2.
    pose proof (wrap32_range (msg_len + 4)) as Ht.
    assert (E : m2 = set_tail m (wrap32 (tail (header m) + wrap32 (msg_len + 4)))).
    { unfold m2. f_equal. rewrite wrap32_add_l, wrap32_add_r. f_equal. lia. }
    split.
    - rewrite E. unfold occupancy_ok. rewrite Hgo by lia.
      unfold set_tail. cbn [header capacity]. lia.
    - right. exists (wrap32 (msg_len + 4)). split; [lia |].
      split; [exact E |]. rewrite E. apply Hgo. lia. }
  fold (ReadableBytes m) in Hr.
  destruct (Z.ltb_spec (ReadableBytes m) 4).
  { injection Hr as <- <- <-. split; [split; assumption | left; reflexivity]. }
  destruct (ReadRaw rb m _ _ 4) as [lenbuf |]; cbn [bind] in Hr; [| discriminate].
  destruct (le_combine lenbuf =? 0); cbn [orb] in Hr.
  { injection Hr as <- <- <-. split; [split; assumption | left; reflexivity]. }
  destruct (Z.ltb_spec (ReadableBytes m) (wrap32 (le_combine lenbuf + 4))).
  { injection Hr as <- <- <-. split; [split; assumption | left; reflexivity]. }
  destruct (le_combine lenbuf >? max_len).
  { injection Hr as <- <- <-. apply Hadv. lia. }
  destruct (ReadRaw rb m _ out _) as [o |]; cbn [bind] in Hr; [| discriminate].
  injection Hr as <- <- <-. apply Hadv. lia.
Qed.

Lemma step_occupancy (rb : ByteRingBuffer) (m : Region) (op : Op) (m' : Region) :
  occupancy_ok m -> step rb m op = Some m' -> occupancy_ok m'.
Proof.
  intros Hok Hs. destruct op as [src len | out max_len]; cbn [step] in Hs.
  - destruct (Write rb m src len) as [[b m1] |] eqn:E; cbn [bind snd] in Hs;
      [| discriminate].
    injection Hs as <-. apply (Write_occupancy rb m src len b m1 Hok E).
  - destruct (Read rb m out max_len) as [[[n o] m1] |] eqn:E; cbn [bind snd] in Hs;
      [| discriminate].
    injection Hs as <-. apply (Read_occupancy rb m out max_len n o m1 Hok E).
Qed.

Lemma run_occupancy (rb : ByteRingBuffer) (ops : list Op) :
  forall m m', occupancy_ok m -> run rb m ops = Some m' -> occupancy_ok m'.
Proof.
  induction ops as [| op ops IH]; intros m m' Hok Hr; cbn [run] in Hr.
  - injection Hr as <-. exact Hok.
  - destruct (step rb m op) as [m1 |] eqn:E; cbn [bind] in Hr; [| discriminate].
    apply (IH m1 m'); [| exact Hr]. apply (step_occupancy rb m op m1 Hok E).
Qed.

Lemma RoundDownPow2_range (v : Z) : 0 <= v < 2 ^ 32 -> 0 <= RoundDownPow2 v < 2 ^ 32.
Proof.
  intros Hv. destruct (Z.eq_dec v 0) as [-> | Hne]; [cbn; lia |].
  rewrite RoundDownPow2_log2 by lia.
  assert (Z.log2 v < 32) by (apply Z.log2_lt_pow2; lia).
  pose proof (Z.log2_nonneg v).
  split; [apply Z.pow_nonneg; lia | apply Z.pow_lt_mono_r; lia].
Qed.

Lemma new_producer_occupancy (m : Region) (total_size : Z) :
  occupancy_ok (snd (ByteRingBuffer_new m total_size true)).
Proof.
  unfold ByteRingBuffer_new, occupancy_ok, ReadableBytes.
  cbn [snd header head tail capacity].
  pose proof (RoundDownPow2_range _ (wrap32_range (total_size - kHeaderSize))).
  change (wrap32 (0 - 0)) with 0. lia.
Qed.

(** C4.  From the state a producer-mode constructor leaves, every run of
    writes and reads keeps [head - tail], taken modulo 2^32, between 0 and
    [capacity]; there a write that returns true moves [head] forward by
    [len + 4] and the occupancy stays within [capacity], and a read leaves
    [head] alone and moves [tail] forward by no more than the occupancy. *)
Theorem occupancy_invariant (m0 : Region) (total_size : Z) (ops : list Op) (m : Region) :
  let rb := fst (ByteRingBuffer_new m0 total_size true) in
  run rb (snd (ByteRingBuffer_new m0 total_size true)) ops = Some m ->
  (0 <= wrap32 (head (header m) - tail (header m)) <= capacity (header m))
  /\ (forall src len m',
        Write rb m src len = Some (true, m') ->
        head (header m') = wrap32 (head (header m) + len + 4)
        /\ tail (header m') = tail (header m)
        /\ ReadableBytes m' = ReadableBytes m + wrap32 (len + 4)
        /\ ReadableBytes m' <= capacity (header m'))
  /\ (forall out max_len n out' m',
        Read rb m out max_len = Some (n, out', m') ->
        head (header m') = head (header m)
        /\ (m' = m
            \/ exists d, 0 <= d <= ReadableBytes m
                 /\ tail (header m') = wrap32 (tail (header m) + d)
                 /\ ReadableBytes m' = ReadableBytes m - d)).
Proof.
  intros rb Hrun.
  pose proof (run_occupancy rb ops _ m (new_producer_occupancy m0 total_size) Hrun) as Hok.
  split; [exact (proj2 Hok) |]. split.
  - intros src len m' Hw.
    destruct (Write_occupancy rb m src len true m' Hok Hw) as (Hok' & _ & Ht).
    destruct (Ht eq_refl) as (H1 & H2 & H3).
    split; [exact H1 |]. split; [exact H2 |]. split; [exact H3 |].
    exact (proj2 (proj2 Hok')).
  - intros out max_len n out' m' Hr.
    destruct (Read_occupancy rb m out max_len n out' m' Hok Hr) as (_ & [-> | Hd]).
    + split; [reflexivity | left; reflexivity].
    + destruct Hd as (d & Hd & -> & Hrd). split; [reflexivity |].
      right. exists d. split; [exact Hd |]. split; [reflexivity | exact Hrd].
Qed.

Lemma occupancy_invariant_witness :
  run (fst ring16) (snd ring16) ops16 = Some final16
  /\ 0 <= wrap32 (head (header final16) - tail (header final16))
       <= capacity (header final16).
Proof.
  assert (H : run (fst ring16) (snd ring16) ops16 = Some final16)
    by (vm_compute; reflexivity).
  split; [exact H |].
  exact (proj1 (occupancy_invariant
                  (mkRegion (mkRingHeader 0 0 0 0) (repeat Byte.xff 16)) 32
                  ops16 final16 H)).
Defined.

(** Every operation on a ring in a state that writes and reads can reach
    is defined, as long as the caller's buffers are as long as it says. *)
Lemma step_defined (rb : ByteRingBuffer) (m : Region) (fs : list (list byte)) (op : Op) :
  holds rb m fs ->
  match op with
  | OpWrite src len => 0 <= len /\ len + 4 < 2 ^ 32 /\ len <= Z.of_nat (length src)
  | OpRead out max_len => 0 <= max_len <= Z.of_nat (length out)
  end ->
  exists m' fs', step rb m op = Some m' /\ holds rb m' fs'.
Proof.
  intros Hh Hop. destruct op as [src len | out max_len]; cbn [step].
  - destruct Hop as (H0 & H1 & H2).
    destruct (Z.ltb_spec (WriteableBytes m) (len + 4)) as [Hfull | Hroom].
    + rewrite Write_no_room by (apply Z.ltb_lt; rewrite wrap32_small; lia).
      exists m, fs. split; [reflexivity | exact Hh].
    + destruct (Write_accept rb m fs src len Hh H0 H2 Hroom) as (m' & E & Hh' & _).
      rewrite E. exists m'. eexists. split; [reflexivity | exact Hh'].
  - destruct fs as [| f fs].
    + rewrite Read_empty by (rewrite (holds_occ _ _ _ Hh); cbn; lia).
      exists m, []. split; [reflexivity | exact Hh].
    + destruct (Z.eq_dec (Z.of_nat (length f)) 0) as [E0 | N0].
      * rewrite (Read_stuck rb m f fs Hh out max_len E0).
        exists m, (f :: fs). split; [reflexivity | exact Hh].
      * destruct (Z_lt_ge_dec max_len (Z.of_nat (length f))) as [Hlt | Hge].
        -- destruct (Read_skip rb m f fs Hh out max_len ltac:(lia) Hlt) as [E Hh'].
           rewrite E. eexists. exists fs. split; [reflexivity | exact Hh'].
        -- destruct (Read_deliver rb m f fs Hh out max_len ltac:(lia) ltac:(lia)
                       ltac:(lia)) as [E Hh'].
           rewrite E. eexists. exists fs. split; [reflexivity | exact Hh'].
Qed.

(** ** Where the code leaves the specification *)

(** C3.  On a fresh ring [Write(data, 0)] is accepted: it returns true,
    stores four zero bytes and moves [head] to 4.  [Read] then takes the
    zero prefix for "no frame" and returns 0 without moving [tail], also
    after a further payload has been written behind it. *)
Theorem Write_zero_length_accepted :
  let rb := fst ring16 in
  let m := snd ring16 in
  let m1 := mkRegion (mkRingHeader 4 0 16 0) (zeros 4 ++ repeat Byte.xff 12) in
  Write rb m [] 0 = Some (true, m1)
  /\ Read rb m1 (zeros 8) 8 = Some (0, zeros 8, m1)
  /\ HasData m1 = true.
Proof. vm_compute. auto. Qed.

(** C1.  Both writes of the sequence ["", "A"] are accepted on a fresh
    ring, yet the two reads that follow return 0 and 0: the one-byte
    payload never comes back. *)
Theorem roundtrip_lost_after_empty_payload :
  let rb := fst ring16 in
  let m1 := mkRegion (mkRingHeader 9 0 16 0)
                     (u32_bytes 0 ++ u32_bytes 1 ++ [Byte.x41] ++ repeat Byte.xff 7) in
  write_seq rb (snd ring16) [[]; [Byte.x41]] = Some ([true; true], m1)
  /\ read_seq rb m1 [(zeros 8, 8); (zeros 8, 8)]
     = Some ([(0, zeros 8); (0, zeros 8)], m1)
  /\ map (fun pb => delivered (fst pb) (snd pb))
         (combine [[]; [Byte.x41]] [(zeros 8, 8); (zeros 8, 8)])
     = [(0, zeros 8); (1, Byte.x41 :: zeros 7)].
Proof. vm_compute. auto. Qed.

(** As long as [len + 4] does not wrap, the sum is the one of the integers. *)
Lemma Write_full_rejected_in_range (rb : ByteRingBuffer) (m : Region) (src : list byte)
    (len : Z) :
  0 <= len -> len + 4 < 2 ^ 32 -> WriteableBytes m < len + 4 ->
  Write rb m src len = Some (false, m).
Proof.
  intros H0 H1 H2. apply Write_no_room. apply Z.ltb_lt.
  rewrite wrap32_small by lia. exact H2.
Qed.

(** C2.  On the full ring [full16], [WriteableBytes()] is 0, which is
    below [len + 4] for [len = 4294967292]; yet [Write] does not return
    false: [len + 4] wraps to 0, the test for room passes, the length prefix
    of the unread frame is overwritten, and the copy of the payload runs past
    the end of the data area. *)
Theorem Write_full_overflow_not_rejected (src : list byte) :
  WriteableBytes full16 = 0
  /\ WriteableBytes full16 < 4294967292 + 4
  /\ WriteRaw view16 full16 (head (header full16)) (u32_bytes 4294967292) 4
     = Some (set_data full16
               ([Byte.xfc; Byte.xff; Byte.xff; Byte.xff] ++ repeat Byte.x41 12))
  /\ Write view16 full16 src 4294967292 = None.
Proof.
  split; [reflexivity |]. split; [reflexivity |].
  assert (E1 : WriteRaw view16 full16 (head (header full16)) (u32_bytes 4294967292) 4
               = Some (set_data full16
                         ([Byte.xfc; Byte.xff; Byte.xff; Byte.xff] ++ repeat Byte.x41 12)))
    by (vm_compute; reflexivity).
  split; [exact E1 |].
  unfold Write.
  change (WriteableBytes full16 <? wrap32 (4294967292 + 4)) with false.
  cbv iota. rewrite E1. cbn [bind].
  unfold WriteRaw.
  change (wrap32 (capacity _ - Z.land _ _)) with 12.
  change (Z.land _ _) with 4.
  change (12 >=? 4294967292) with false. cbv iota.
  change (wrap32 (4294967292 - 12)) with 4294967280.
  destruct (memcpy _ 4 src 0 12) as [d1 |] eqn:Ed1; [| reflexivity].
  cbn [bind]. apply memcpy_length in Ed1.
  destruct (memcpy d1 0 src 12 4294967280) as [d2 |] eqn:Ed2; [| reflexivity].
  apply memcpy_inv in Ed2. destruct Ed2 as [(_ & _ & _ & Hb & _) _].
  rewrite Ed1 in Hb. cbn in Hb. lia.
Qed.

(** C7.  On a fresh ring of capacity 16 a write of 4294967292 bytes is not
    turned away: [len + 4] wraps to 0, the test for room passes, and the
    copy of the payload runs past the end of the data area. *)
Theorem Write_length_overflow_not_rejected (src : list byte) :
  let rb := fst ring16 in
  let m := snd ring16 in
  capacity (header m) - 4 < 4294967292
  /\ (WriteableBytes m <? wrap32 (4294967292 + 4)) = false
  /\ Write rb m src 4294967292 = None.
Proof.
  cbv zeta. split; [reflexivity |]. split; [reflexivity |].
  unfold Write.
  change (WriteableBytes (snd ring16) <? wrap32 (4294967292 + 4)) with false.
  cbv iota.
  destruct (WriteRaw (fst ring16) (snd ring16) (head (header (snd ring16)))
              (u32_bytes 4294967292) 4) as [m1 |] eqn:E1; [| reflexivity].
  vm_compute in E1. injection E1 as <-. cbn [bind].
  unfold WriteRaw.
  change (wrap32 (capacity _ - Z.land _ _)) with 12.
  change (Z.land _ _) with 4.
  change (12 >=? 4294967292) with false. cbv iota.
  change (wrap32 (4294967292 - 12)) with 4294967280.
  destruct (memcpy _ 4 src 0 12) as [d1 |] eqn:Ed1; [| reflexivity].
  cbn [bind]. apply memcpy_length in Ed1.
  destruct (memcpy d1 0 src 12 4294967280) as [d2 |] eqn:Ed2; [| reflexivity].
  apply memcpy_inv in Ed2. destruct Ed2 as [(_ & _ & _ & Hb & _) _].
  rewrite Ed1 in Hb. cbn in Hb. lia.
Qed.

(** Short of that overflow the bound holds: a payload longer than
    [capacity - 4] is turned away in every state that respects the
    occupancy bound. *)
Lemma Write_too_long_rejected (rb : ByteRingBuffer) (m : Region) (src : list byte) (len : Z) :
  occupancy_ok m ->
  capacity (header m) - 4 < len -> len + 4 < 2 ^ 32 ->
  Write rb m src len = Some (false, m).
Proof.
  intros [Hcap Hocc] Hlen Hno. apply Write_no_room. apply Z.ltb_lt.
  rewrite (wrap32_small (len + 4)) by lia.
  unfold WriteableBytes, ReadableBytes in *. rewrite wrap32_small by lia. lia.
Qed.

(** ** The consumer facade and the size of its region *)

Lemma firstn_app_exact {A : Type} (l r : list A) (n : nat) :
  length l = n -> firstn n (l ++ r) = l.
Proof.
  intros <-. rewrite firstn_app, Nat.sub_diag, firstn_all. cbn. apply app_nil_r.
Qed.

Lemma c_str_prefix (s : list ascii) : firstn (length (c_str s)) s = c_str s.
Proof.
  induction s as [| c s IH]; cbn [c_str]; [reflexivity |].
  destruct (Ascii.eqb c Ascii.zero); cbn [length firstn]; [reflexivity |].
  f_equal. exact IH.
Qed.

Lemma c_str_length (s : list ascii) : (length (c_str s) <= length s)%nat.
Proof.
  induction s as [| c s IH]; cbn [c_str length]; [lia |].
  destruct (Ascii.eqb c Ascii.zero); cbn [length]; lia.
Qed.

Lemma c_str_firstn_nul (s r : list ascii) (n : nat) :
  c_str (firstn n (c_str s) ++ Ascii.zero :: r) = firstn n (c_str s).
Proof.
  revert n. induction s as [| c s IH]; intros n; cbn [c_str].
  - rewrite firstn_nil. reflexivity.
  - destruct (Ascii.eqb c Ascii.zero) eqn:E.
    + rewrite firstn_nil. reflexivity.
    + destruct n as [| n]; cbn [firstn app c_str]; [reflexivity |].
      rewrite E. f_equal. apply IH.
Qed.

Lemma firstn_min_length {A : Type} (l : list A) (n : nat) :
  firstn (Nat.min (length l) n) l = firstn n l.
Proof.
  destruct (Nat.le_ge_cases (length l) n) as [H | H].
  - rewrite Nat.min_l by exact H. rewrite firstn_all, firstn_all2; [reflexivity | exact H].
  - rewrite Nat.min_r by exact H. reflexivity.
Qed.

(** The array that [NormalizeName] leaves in [name_]. *)
Lemma NormalizeName_array (name : list ascii) :
  exists rest,
    NormalizeName (repeat Ascii.zero (Z.to_nat sizeof_name_)) name
    = Some ((if Ascii.eqb (hd Ascii.zero name) "/"%char
             then firstn 63 (c_str name)
             else "/"%char :: firstn 62 (c_str name)) ++ Ascii.zero :: rest).
Proof.
  set (arr := repeat Ascii.zero (Z.to_nat sizeof_name_)).
  assert (Harr : length arr = 64%nat) by reflexivity.
  pose proof (c_str_length name) as Hcl.
  pose proof (c_str_prefix name) as Hpre.
  unfold NormalizeName, strlen, sizeof_name_.
  destruct (Ascii.eqb (hd Ascii.zero name) "/"%char).
  - set (k := Nat.min (length (c_str name)) 63).
    assert (Hk : (if Z.of_nat (length (c_str name)) >? 64 - 1 then 64 - 1
                  else Z.of_nat (length (c_str name))) = Z.of_nat k).
    { destruct (Z.gtb_spec (Z.of_nat (length (c_str name))) (64 - 1)); unfold k; lia. }
    rewrite Hk.
    assert (Hfk : firstn k name = firstn 63 (c_str name)).
    { rewrite <- (firstn_min_length (c_str name) 63). fold k.
      transitivity (firstn k (firstn (length (c_str name)) name)).
      - rewrite firstn_firstn. f_equal. unfold k. lia.
      - rewrite Hpre. reflexivity. }
    rewrite memcpy_ok by (rewrite ?Harr; unfold k; lia).
    cbn [bind]. change (Z.to_nat 0) with 0%nat. cbn [firstn skipn app].
    rewrite Z.add_0_l, Nat2Z.id, Hfk.
    unfold store.
    assert (Hl : length (firstn 63 (c_str name) ++ skipn k arr) = 64%nat).
    { rewrite <- Hfk, length_app, length_firstn, length_skipn, Harr. unfold k. lia. }
    rewrite Hl.
    destruct (Z.leb_spec 0 (Z.of_nat k)); [| lia].
    destruct (Z.ltb_spec (Z.of_nat k) (Z.of_nat 64)); [| unfold k in *; lia].
    cbn [andb]. rewrite Nat2Z.id.
    rewrite firstn_app_exact
      by (rewrite <- Hfk, length_firstn; unfold k; lia).
    eexists. reflexivity.
  - set (k := Nat.min (length (c_str name)) 62).
    assert (Hk : (if Z.of_nat (length (c_str name)) >? 64 - 2 then 64 - 2
                  else Z.of_nat (length (c_str name))) = Z.of_nat k).
    { destruct (Z.gtb_spec (Z.of_nat (length (c_str name))) (64 - 2)); unfold k; lia. }
    rewrite Hk.
    assert (Hfk : firstn k name = firstn 62 (c_str name)).
    { rewrite <- (firstn_min_length (c_str name) 62). fold k.
      transitivity (firstn k (firstn (length (c_str name)) name)).
      - rewrite firstn_firstn. f_equal. unfold k. lia.
      - rewrite Hpre. reflexivity. }
    change (store arr 0 "/"%char) with (Some ("/"%char :: skipn 1 arr)).
    cbn [bind].
    set (arr1 := "/"%char :: skipn 1 arr).
    assert (Hl1 : length arr1 = 64%nat) by reflexivity.
    rewrite memcpy_ok by (rewrite ?Hl1; unfold k; lia).
    cbn [bind].
    change (firstn (Z.to_nat 1) arr1) with ["/"%char].
    change (skipn (Z.to_nat 0) name) with name.
    rewrite Nat2Z.id, Hfk.
    set (R := skipn (Z.to_nat (1 + Z.of_nat k)) arr1).
    assert (HR : length R = (63 - k)%nat)
      by (unfold R; rewrite length_skipn, Hl1; lia).
    assert (Hf : length (firstn 62 (c_str name)) = k)
      by (rewrite <- Hfk, length_firstn; unfold k; lia).
    unfold store.
    rewrite !length_app, Hf, HR. cbn [length].
    destruct (Z.leb_spec 0 (Z.of_nat k + 1)); [| lia].
    destruct (Z.ltb_spec (Z.of_nat k + 1) (Z.of_nat (1 + (k + (63 - k)))));
      [| unfold k in *; lia].
    cbn [andb].
    replace (Z.to_nat (Z.of_nat k + 1))
      with (length (["/"%char] ++ firstn 62 (c_str name)))
      by (rewrite length_app, Hf; cbn [length]; lia).
    replace (["/"%char] ++ firstn 62 (c_str name) ++ R)
      with ((["/"%char] ++ firstn 62 (c_str name)) ++ R)
      by (rewrite <- app_assoc; reflexivity).
    rewrite firstn_app_exact by reflexivity.
    eexists. cbn [app]. reflexivity.
Qed.

Lemma SharedMemory_new_defined (env : PosixEnv) (name : list ascii) (size : Z)
    (create persist : bool) :
  exists nm,
    NormalizeName (repeat Ascii.zero (Z.to_nat sizeof_name_)) name = Some nm
    /\ SharedMemory_new env name size create persist
       = Some (let '(ok, sz, e) := CreateOrOpen env (c_str nm) size create in
               mkSharedMemory ok sz e persist create nm).
Proof.
  destruct (NormalizeName_array name) as [rest E].
  eexists. split; [exact E |].
  unfold SharedMemory_new. rewrite E. cbn [bind].
  destruct (CreateOrOpen env _ size create) as [[ok sz] e]. reflexivity.
Qed.

Lemma PosixOpen_nonzero_size (env : PosixEnv) (nm : list ascii) (size : Z) :
  size <> 0 -> snd (fst (PosixOpen env nm size)) = size.
Proof.
  intros Hne. unfold PosixOpen, MapRegion.
  destruct (shm_open_ok env nm); cbn [negb]; [| reflexivity].
  destruct (Z.eqb_spec size 0); [contradiction |].
  destruct (mmap_ok env nm size); reflexivity.
Qed.

(** C9, as the specification has it, fails: with a size hint of zero the
    facade does not open the provider with size 0, and the size of the
    mapping is not the 80 bytes of the region. *)
Lemma consumer_hint_zero_not_autodetected :
  ShmConsumer_shm_size 0 <> 0
  /\ exists c m',
       ShmConsumer_new env_ok region64 ring_name 0 = Some (c, m')
       /\ fstat_size env_ok (Name (cons_shm_ c)) = Some 80
       /\ Size (cons_shm_ c) <> 80.
Proof.
  split; [discriminate |].
  eexists. eexists. split; [vm_compute; reflexivity |].
  split; [reflexivity | discriminate].
Qed.

(** C9, amended.  With a size hint of zero the consumer facade asks the
    provider for [kDefaultSize = 1920 * 1080 * 3 + 16 = 6220816] bytes, and
    that is the size of its mapping whatever the size of the region; a
    positive hint is passed on as it is.  The provider takes the size from
    the region only when it is itself opened with size 0, which the facade
    never does. *)
Theorem consumer_hint_zero_default :
  (forall (env : PosixEnv) (m : Region) (name : list ascii) (size : Z),
     exists c m',
       ShmConsumer_new env m name size = Some (c, m')
       /\ Size (cons_shm_ c) = (if size >? 0 then size else 6220816))
  /\ (forall (env : PosixEnv) (name : list ascii) (persist : bool) (st : Z),
        exists s,
          SharedMemory_new env name 0 false persist = Some s
          /\ (shm_open_ok env (Name s) = true ->
              fstat_size env (Name s) = Some st -> 0 < st ->
              Size s = st)).
Proof.
  split.
  - intros env m name size.
    destruct (SharedMemory_new_defined env name (ShmConsumer_shm_size size) false true)
      as (nm & _ & E).
    unfold ShmConsumer_new. rewrite E. cbn [bind].
    pose proof (PosixOpen_nonzero_size env (c_str nm) (ShmConsumer_shm_size size)) as Hsz.
    cbn [CreateOrOpen].
    destruct (PosixOpen env (c_str nm) (ShmConsumer_shm_size size)) as [[ok sz] e].
    cbn [fst snd] in Hsz.
    assert (Hreq : ShmConsumer_shm_size size = if size >? 0 then size else 6220816)
      by reflexivity.
    assert (Hne : ShmConsumer_shm_size size <> 0).
    { rewrite Hreq. destruct (Z.gtb_spec size 0); lia. }
    specialize (Hsz Hne). subst sz.
    destruct ok; cbn [Valid data_nonnull].
    + unfold ByteRingBuffer_new. eexists. eexists. split; [reflexivity |].
      cbn [cons_shm_ Size size_]. exact Hreq.
    + eexists. eexists. split; [reflexivity |].
      cbn [cons_shm_ Size size_]. exact Hreq.
  - intros env name persist st.
    destruct (SharedMemory_new_defined env name 0 false persist) as (nm & _ & E).
    rewrite E. eexists. split; [reflexivity |].
    cbn [CreateOrOpen]. unfold PosixOpen, MapRegion, Name.
    destruct (shm_open_ok env (c_str nm)) eqn:Eo; cbn [negb].
    + cbn [Z.eqb].
      destruct (fstat_size env (c_str nm)) as [st' |] eqn:Ef.
      * destruct (Z.gtb_spec st' 0).
        -- destruct (mmap_ok env (c_str nm) st'); cbn [name_ Size size_];
             intros _ Hst _; rewrite Ef in Hst; congruence.
        -- destruct (mmap_ok env (c_str nm) 0); cbn [name_ Size size_];
             intros _ Hst Hpos; rewrite Ef in Hst; injection Hst as ->; lia.
      * destruct (mmap_ok env (c_str nm) 0); cbn [name_];
          intros _ Hst _; rewrite Ef in Hst; discriminate.
    + cbn [name_]. intros H. rewrite Eo in H. discriminate.
Qed.

Lemma consumer_hint_zero_default_witness :
  (exists c m',
     ShmConsumer_new env_ok region64 ring_name 0 = Some (c, m')
     /\ Size (cons_shm_ c) = 6220816)
  /\ exists s,
       SharedMemory_new env_ok ring_name 0 false true = Some s /\ Size s = 80.
Proof.
  split.
  - exact (proj1 consumer_hint_zero_default env_ok region64 ring_name 0).
  - destruct (proj2 consumer_hint_zero_default env_ok ring_name true 80) as (s & E & H).
    exists s. split; [exact E |].
    apply H; reflexivity.
Defined.

(** ** Names *)

Lemma store_length {A : Type} (a : list A) (i : Z) (x : A) (a' : list A) :
  store a i x = Some a' -> length a' = length a.
Proof.
  unfold store.
  destruct (Z.leb_spec 0 i); cbn [andb]; [| discriminate].
  destruct (Z.ltb_spec i (Z.of_nat (length a))); [| discriminate].
  intros E. injection E as <-.
  rewrite length_app, length_firstn. cbn [length]. rewrite length_skipn. lia.
Qed.

Lemma NormalizeName_length (name_ name a : list ascii) :
  NormalizeName name_ name = Some a -> length a = length name_.
Proof.
  unfold NormalizeName.
  destruct (Ascii.eqb (hd Ascii.zero name) "/"%char).
  - destruct (memcpy name_ 0 name 0 _) as [a1 |] eqn:E1; cbn [bind]; [| discriminate].
    intros E2. rewrite (store_length _ _ _ _ E2). exact (memcpy_length _ _ _ _ _ _ E1).
  - destruct (store name_ 0 "/"%char) as [a0 |] eqn:E0; cbn [bind]; [| discriminate].
    destruct (memcpy a0 1 name 0 _) as [a1 |] eqn:E1; cbn [bind]; [| discriminate].
    intros E2. rewrite (store_length _ _ _ _ E2), (memcpy_length _ _ _ _ _ _ E1).
    exact (store_length _ _ _ _ E0).
Qed.

(** C10.  On POSIX the name that the object built by the constructor keeps
    in [name_], and hands out through [Name()], has at most 63 characters
    before its NUL, inside the 64 bytes of the array: the first 63 characters
    of an argument that starts with a slash, and a slash followed by the first
    62 characters of one that does not.  Nothing reports the truncation:
    validity, size and status are what the system calls answer for the
    truncated name.  So two names that differ only after that point give the
    same object, whose name is the truncated one. *)
Theorem NormalizeName_truncates :
  (forall name : list ascii,
     exists a rest,
       NormalizeName (repeat Ascii.zero (Z.to_nat sizeof_name_)) name = Some a
       /\ a = c_str a ++ Ascii.zero :: rest
       /\ (length (c_str a) <= 63)%nat
       /\ c_str a = (if Ascii.eqb (hd Ascii.zero name) "/"%char
                     then firstn 63 (c_str name)
                     else "/"%char :: firstn 62 (c_str name)))
  /\ (forall env name size create persist,
        exists s rest,
          SharedMemory_new env name size create persist = Some s
          /\ Name s = (if Ascii.eqb (hd Ascii.zero name) "/"%char
                       then firstn 63 (c_str name)
                       else "/"%char :: firstn 62 (c_str name))
          /\ (length (Name s) <= 63)%nat
          /\ name_ s = Name s ++ Ascii.zero :: rest
          /\ length (name_ s) = 64%nat
          /\ (Valid s, Size s, GetError s) = CreateOrOpen env (Name s) size create
          /\ persist_ s = persist /\ create_ s = create)
  /\ (long_name "x" <> long_name "y"
      /\ forall env size create persist,
           SharedMemory_new env (long_name "x") size create persist
           = SharedMemory_new env (long_name "y") size create persist
           /\ SharedMemory_new env (long_name "x") size create persist <> None
           /\ exists s,
                SharedMemory_new env (long_name "y") size create persist = Some s
                /\ Name s = "/"%char :: repeat "a"%char 62
                /\ (Valid s, Size s, GetError s)
                   = CreateOrOpen env ("/"%char :: repeat "a"%char 62) size create).
Proof.
  assert (Hname : forall name : list ascii,
            exists a rest,
              NormalizeName (repeat Ascii.zero (Z.to_nat sizeof_name_)) name = Some a
              /\ a = c_str a ++ Ascii.zero :: rest
              /\ (length (c_str a) <= 63)%nat
              /\ c_str a = (if Ascii.eqb (hd Ascii.zero name) "/"%char
                            then firstn 63 (c_str name)
                            else "/"%char :: firstn 62 (c_str name))).
  { intros name. destruct (NormalizeName_array name) as [rest E].
    eexists. exists rest. split; [exact E |].
    destruct (Ascii.eqb (hd Ascii.zero name) "/"%char).
    + rewrite c_str_firstn_nul. split; [reflexivity |].
      split; [rewrite length_firstn; lia | reflexivity].
    + cbn [app c_str]. change (Ascii.eqb "/"%char Ascii.zero) with false. cbv iota.
      rewrite c_str_firstn_nul. split; [reflexivity |].
      split; [cbn [length]; rewrite length_firstn; lia | reflexivity]. }
  assert (Hobj : forall env name size create persist,
            exists s rest,
              SharedMemory_new env name size create persist = Some s
              /\ Name s = (if Ascii.eqb (hd Ascii.zero name) "/"%char
                           then firstn 63 (c_str name)
                           else "/"%char :: firstn 62 (c_str name))
              /\ (length (Name s) <= 63)%nat
              /\ name_ s = Name s ++ Ascii.zero :: rest
              /\ length (name_ s) = 64%nat
              /\ (Valid s, Size s, GetError s) = CreateOrOpen env (Name s) size create
              /\ persist_ s = persist /\ create_ s = create).
  { intros env name size create persist.
    destruct (Hname name) as (a & rest & Ea & Hsplit & Hlen & Hstr).
    pose proof (NormalizeName_length _ _ _ Ea) as Hl64.
    unfold SharedMemory_new. rewrite Ea. cbn [bind].
    destruct (CreateOrOpen env (c_str a) size create) as [[ok sz] e] eqn:Ec.
    eexists. exists rest. split; [reflexivity |].
    unfold Name, Valid, Size, GetError.
    cbn [name_ data_nonnull size_ error_ persist_ create_].
    rewrite Ec. auto 10. }
  split; [exact Hname |]. split; [exact Hobj |].
  split; [discriminate |].
  intros env size create persist.
  assert (Heq : SharedMemory_new env (long_name "x") size create persist
                = SharedMemory_new env (long_name "y") size create persist).
  { unfold SharedMemory_new.
    replace (NormalizeName (repeat Ascii.zero (Z.to_nat sizeof_name_)) (long_name "x"))
      with (NormalizeName (repeat Ascii.zero (Z.to_nat sizeof_name_)) (long_name "y"))
      by (vm_compute; reflexivity).
    reflexivity. }
  destruct (Hobj env (long_name "y") size create persist)
    as (s & rest & Es & Hn & _ & _ & _ & Hst & _).
  split; [exact Heq |]. split; [rewrite Heq, Es; discriminate |].
  exists s. split; [exact Es |].
  assert (Hn' : Name s = "/"%char :: repeat "a"%char 62) by (rewrite Hn; reflexivity).
  split; [exact Hn' |]. rewrite <- Hn'. exact Hst.
Qed.

(** * Further properties of the ring *)

(** ** Occupancy and ownership of the header words *)

Lemma occupancy_free (m : Region) :
  occupancy_ok m -> ReadableBytes m + WriteableBytes m = Capacity m.
Proof.
  intros [Hcap Hocc]. unfold WriteableBytes, Capacity.
  unfold ReadableBytes in *. rewrite (wrap32_small (capacity _ - _)) by lia. lia.
Qed.

(** X1.  In every state that writes and reads reach from the state the
    producer-mode constructor leaves, [ReadableBytes() + WriteableBytes()]
    is [Capacity()]. *)
Theorem occupancy_sum (m0 : Region) (total_size : Z) (ops : list Op) (m : Region) :
  run (fst (ByteRingBuffer_new m0 total_size true))
      (snd (ByteRingBuffer_new m0 total_size true)) ops = Some m ->
  ReadableBytes m + WriteableBytes m = Capacity m.
Proof.
  intros Hrun. apply occupancy_free.
  exact (run_occupancy _ ops _ m (new_producer_occupancy m0 total_size) Hrun).
Qed.

Lemma occupancy_sum_witness :
  run (fst ring16) (snd ring16) ops16 = Some final16
  /\ ReadableBytes final16 + WriteableBytes final16 = Capacity final16.
Proof.
  assert (H : run (fst ring16) (snd ring16) ops16 = Some final16)
    by (vm_compute; reflexivity).
  split; [exact H |].
  exact (occupancy_sum (mkRegion (mkRingHeader 0 0 0 0) (repeat Byte.xff 16)) 32
           ops16 final16 H).
Defined.

Lemma WriteRaw_length (rb : ByteRingBuffer) (m : Region) (pos : Z) (src : list byte)
    (len : Z) (m' : Region) :
  WriteRaw rb m pos src len = Some m' -> length (data m') = length (data m).
Proof.
  unfold WriteRaw.
  destruct (_ >=? len).
  - destruct (memcpy _ _ _ _ _) as [d |] eqn:E; cbn [bind]; [| discriminate].
    intros H. injection H as <-. exact (memcpy_length _ _ _ _ _ _ E).
  - destruct (memcpy (data m) _ _ _ _) as [d1 |] eqn:E1; cbn [bind]; [| discriminate].
    destruct (memcpy d1 _ _ _ _) as [d2 |] eqn:E2; cbn [bind]; [| discriminate].
    intros H. injection H as <-. cbn [set_data data].
    rewrite (memcpy_length _ _ _ _ _ _ E2). exact (memcpy_length _ _ _ _ _ _ E1).
Qed.

Lemma ReadRaw_length (rb : ByteRingBuffer) (m : Region) (pos : Z) (dst : list byte)
    (len : Z) (d : list byte) :
  ReadRaw rb m pos dst len = Some d -> length d = length dst.
Proof.
  unfold ReadRaw.
  destruct (_ >=? len).
  - apply memcpy_length.
  - destruct (memcpy dst _ _ _ _) as [d1 |] eqn:E1; cbn [bind]; [| discriminate].
    intros E2. rewrite (memcpy_length _ _ _ _ _ _ E2). exact (memcpy_length _ _ _ _ _ _ E1).
Qed.

(** X2.  Each side writes only what it owns.  [Write] leaves [tail],
    [capacity] and [reserved] alone and keeps the size of the data area;
    [Read] leaves [head], [capacity], [reserved] and every byte of the data
    area alone and keeps the size of the caller's buffer. *)
Theorem Write_Read_ownership (rb : ByteRingBuffer) (m : Region) :
  (forall src len b m',
     Write rb m src len = Some (b, m') ->
     tail (header m') = tail (header m)
     /\ capacity (header m') = capacity (header m)
     /\ reserved (header m') = reserved (header m)
     /\ length (data m') = length (data m))
  /\ (forall out max_len n out' m',
        Read rb m out max_len = Some (n, out', m') ->
        head (header m') = head (header m)
        /\ capacity (header m') = capacity (header m)
        /\ reserved (header m') = reserved (header m)
        /\ data m' = data m
        /\ length out' = length out).
Proof.
  split.
  - intros src len b m' Hw. unfold Write in Hw.
    destruct (WriteableBytes m <? wrap32 (len + 4)).
    + injection Hw as <- <-. auto.
    + destruct (WriteRaw rb m _ _ 4) as [m1 |] eqn:E1; cbn [bind] in Hw; [| discriminate].
      destruct (WriteRaw rb m1 _ src len) as [m2 |] eqn:E2; cbn [bind] in Hw;
        [| discriminate].
      injection Hw as <- <-.
      pose proof (WriteRaw_header _ _ _ _ _ _ E1) as H1.
      pose proof (WriteRaw_header _ _ _ _ _ _ E2) as H2.
      pose proof (WriteRaw_length _ _ _ _ _ _ E1) as L1.
      pose proof (WriteRaw_length _ _ _ _ _ _ E2) as L2.
      unfold set_head. cbn [header data tail capacity reserved].
      rewrite H2, H1, L2, L1. auto.
  - intros out max_len n out' m' Hr. unfold Read in Hr.
    destruct (_ <? 4).
    { injection Hr as <- <- <-. auto 6. }
    destruct (ReadRaw rb m _ _ 4) as [lenbuf |]; cbn [bind] in Hr; [| discriminate].
    destruct ((le_combine lenbuf =? 0) || _).
    { injection Hr as <- <- <-. auto 6. }
    destruct (le_combine lenbuf >? max_len).
    { injection Hr as <- <- <-. unfold set_tail. cbn. auto 6. }
    destruct (ReadRaw rb m _ out _) as [o |] eqn:Eo; cbn [bind] in Hr; [| discriminate].
    injection Hr as <- <- <-. unfold set_tail. cbn [header data head capacity reserved].
    pose proof (ReadRaw_length _ _ _ _ _ _ Eo). auto 6.
Qed.

Lemma Write_Read_ownership_witness :
  (exists m', Write view16 late16 [Byte.x41; Byte.x42] 2 = Some (true, m')
     /\ tail (header m') = 4294967290 /\ length (data m') = 16%nat)
  /\ (exists m', Read view16 full16 (zeros 12) 12 = Some (12, repeat Byte.x41 12, m')
        /\ head (header m') = 16 /\ data m' = data full16).
Proof.
  split.
  - assert (H : Write view16 late16 [Byte.x41; Byte.x42] 2
                = Some (true, mkRegion (mkRingHeader 0 4294967290 16 0)
                                       (zeros 10 ++ u32_bytes 2 ++ [Byte.x41; Byte.x42])))
      by (vm_compute; reflexivity).
    eexists. split; [exact H |].
    destruct (proj1 (Write_Read_ownership view16 late16) _ _ _ _ H) as (H1 & _ & _ & H4).
    split; [exact H1 | exact H4].
  - assert (H : Read view16 full16 (zeros 12) 12
                = Some (12, repeat Byte.x41 12, set_tail full16 16))
      by (vm_compute; reflexivity).
    eexists. split; [exact H |].
    destruct (proj2 (Write_Read_ownership view16 full16) _ _ _ _ _ H) as (H1 & _ & _ & H4 & _).
    split; [exact H1 | exact H4].
Defined.

(** ** Concrete rings that satisfy the invariant *)

Lemma wf_view16 (h t r : Z) (d : list byte) :
  0 <= h < 2 ^ 32 -> 0 <= t < 2 ^ 32 -> length d = 16%nat ->
  wf view16 (mkRegion (mkRingHeader h t 16 r) d).
Proof.
  intros Hh Ht Hd. constructor; cbn [header data head tail capacity mask_ view16].
  - exists 4. split; [lia | reflexivity].
  - reflexivity.
  - rewrite Hd. cbn. lia.
  - exact Hh.
  - exact Ht.
Qed.

Lemma holds_empty16 : holds view16 (snd (ByteRingBuffer_new (blank 16) 32 true)) [].
Proof.
  exact (new_producer_holds (blank 16) 32 ltac:(split; [reflexivity | discriminate])).
Qed.

Lemma holds_full16 : holds view16 full16 [repeat Byte.x41 12].
Proof.
  destruct (Write_accept view16 _ [] (repeat Byte.x41 12) 12 holds_empty16
              ltac:(discriminate) ltac:(discriminate) ltac:(discriminate))
    as (m' & E & Hh & _).
  assert (E' : Write view16 (snd (ByteRingBuffer_new (blank 16) 32 true))
                 (repeat Byte.x41 12) 12 = Some (true, full16))
    by (vm_compute; reflexivity).
  rewrite E' in E. injection E as <-. exact Hh.
Qed.

(** ** [HasData] *)

(** X3.  In a state reached without payloads of length zero, [HasData()]
    is true exactly when a [Read] into a buffer of at least [capacity]
    bytes hands out a message. *)
Theorem HasData_iff_deliverable (rb : ByteRingBuffer) (m : Region)
    (fs : list (list byte)) (out : list byte) (max_len : Z) :
  holds rb m fs ->
  Forall (fun f => f <> []) fs ->
  capacity (header m) <= max_len <= Z.of_nat (length out) ->
  (HasData m = true
   <-> exists n out' m', Read rb m out max_len = Some (n, out', m') /\ 0 < n).
Proof.
  intros Hh Hne Hmax. unfold HasData.
  pose proof (holds_occ _ _ _ Hh) as Hocc.
  destruct fs as [| f fs].
  - cbn [frames_size] in Hocc. rewrite Hocc. split; [discriminate |].
    intros (n & out' & m' & E & Hn).
    rewrite Read_empty in E by lia. injection E as <- _ _. lia.
  - pose proof (front_bounds rb m f fs Hh) as (B1 & B2 & B3).
    pose proof (frames_size_nonneg fs) as Hn.
    rewrite (front_available rb m f fs Hh).
    inversion Hne as [| ? ? Hf _]; subst.
    assert (H1 : 1 <= Z.of_nat (length f)) by (destruct f; [congruence | cbn; lia]).
    split.
    + intros _.
      destruct (Read_deliver rb m f fs Hh out max_len H1 ltac:(lia) ltac:(lia)) as [E _].
      eexists. eexists. eexists. split; [exact E | lia].
    + intros _. destruct (Z.geb_spec (Z.of_nat (length f) + 4 + frames_size fs) 4);
        [reflexivity | lia].
Qed.

Lemma HasData_iff_deliverable_witness :
  HasData full16 = true
  /\ exists n out' m', Read view16 full16 (zeros 16) 16 = Some (n, out', m') /\ 0 < n.
Proof.
  assert (H : HasData full16 = true) by reflexivity.
  split; [exact H |].
  apply (HasData_iff_deliverable view16 full16 [repeat Byte.x41 12] (zeros 16) 16
           holds_full16).
  - repeat constructor. discriminate.
  - cbn. lia.
  - exact H.
Defined.

(** ** The wrap-aware copies *)

(** X4.  What [WriteRaw] stores at a position, [ReadRaw] reads back from
    that position, for any length up to [capacity] and also when the range
    wraps around the end of the data area; the bytes of the caller's buffer
    behind the length stay, and so does the header. *)
Theorem WriteRaw_ReadRaw_roundtrip (rb : ByteRingBuffer) (m : Region)
    (pos : Z) (src dst : list byte) (len : Z) :
  wf rb m ->
  0 <= len <= capacity (header m) ->
  len <= Z.of_nat (length src) -> len <= Z.of_nat (length dst) ->
  exists m' d',
    WriteRaw rb m pos src len = Some m'
    /\ ReadRaw rb m' pos dst len = Some d'
    /\ d' = firstn (Z.to_nat len) src ++ skipn (Z.to_nat len) dst
    /\ header m' = header m.
Proof.
  intros Hwf Hlen Hsrc Hdst.
  destruct (WriteRaw_spec rb m Hwf pos src len Hlen Hsrc) as (m' & Ew & Hh & Hl & Hb).
  assert (Hwf' : wf rb m').
  { destruct Hwf as [P1 P2 P3 P4 P5]. constructor; rewrite ?Hh, ?Hl; assumption. }
  destruct (ReadRaw_spec rb m' Hwf' pos dst len) as (d' & Er & Hl' & Hb');
    [rewrite Hh; exact Hlen | exact Hdst |].
  exists m', d'. split; [exact Ew |]. split; [exact Er |]. split; [| exact Hh].
  apply zget_ext.
  - rewrite Hl', length_app, length_firstn, length_skipn. lia.
  - intros i Hi. rewrite Hb' by lia. unfold zget at 2.
    destruct (Z.ltb_spec i len) as [Hi' | Hi'].
    + rewrite Hb. replace (pos + i - pos) with i by lia.
      rewrite Z.mod_small by lia.
      destruct (Z.ltb_spec i len); [| lia].
      rewrite app_nth1 by (rewrite length_firstn; lia).
      rewrite nth_firstn.
      destruct (Nat.ltb_spec (Z.to_nat i) (Z.to_nat len)); [reflexivity | lia].
    + rewrite app_nth2 by (rewrite length_firstn; lia).
      rewrite nth_skipn, length_firstn. unfold zget. f_equal. lia.
Qed.

Lemma WriteRaw_ReadRaw_roundtrip_witness :
  exists m' d',
    WriteRaw view16 late16 4294967294 (repeat Byte.x41 5) 5 = Some m'
    /\ ReadRaw view16 m' 4294967294 (zeros 8) 5 = Some d'
    /\ d' = repeat Byte.x41 5 ++ zeros 3
    /\ header m' = header late16.
Proof.
  apply (WriteRaw_ReadRaw_roundtrip view16 late16 4294967294 (repeat Byte.x41 5) (zeros 8) 5).
  - apply wf_view16; [lia | lia | reflexivity].
  - cbn. lia.
  - cbn. lia.
  - cbn. lia.
Defined.

(** ** [RoundDownPow2] *)

(** X5.  On 32-bit values [RoundDownPow2] is idempotent and monotone,
    returns 0 only for 0, and its result [c] satisfies [c <= v < 2 * c] for
    every [v > 0]. *)
Theorem RoundDownPow2_props (v w : Z) :
  0 <= v < 2 ^ 32 ->
  RoundDownPow2 (RoundDownPow2 v) = RoundDownPow2 v
  /\ RoundDownPow2 v <= v
  /\ (0 < v -> v < 2 * RoundDownPow2 v)
  /\ (v <= w < 2 ^ 32 -> RoundDownPow2 v <= RoundDownPow2 w)
  /\ (RoundDownPow2 v = 0 <-> v = 0).
Proof.
  intros Hv.
  destruct (Z.eq_dec v 0) as [-> | Hne].
  - change (RoundDownPow2 0) with 0.
    split; [reflexivity |]. split; [lia |]. split; [lia |].
    split; [| tauto].
    intros Hw. pose proof (RoundDownPow2_range w ltac:(lia)). lia.
  - assert (Hpos : 0 < v) by lia.
    pose proof (Z.log2_spec v Hpos) as [Hlo Hhi].
    pose proof (Z.log2_nonneg v) as Hk.
    assert (Hk' : Z.log2 v < 32) by (apply Z.log2_lt_pow2; lia).
    assert (Hp : 0 < 2 ^ Z.log2 v) by (apply Z.pow_pos_nonneg; lia).
    assert (Hq : 2 ^ Z.log2 v < 2 ^ 32) by (apply Z.pow_lt_mono_r; lia).
    rewrite (RoundDownPow2_log2 v) by lia.
    split; [| split; [exact Hlo | split; [| split]]].
    + rewrite RoundDownPow2_log2 by lia. rewrite Z.log2_pow2 by lia. reflexivity.
    + intros _. rewrite Z.pow_succ_r in Hhi by lia. lia.
    + intros Hw. rewrite (RoundDownPow2_log2 w) by lia.
      apply Z.pow_le_mono_r; [lia |]. apply Z.log2_le_mono. lia.
    + split; lia.
Qed.

Lemma RoundDownPow2_props_witness :
  RoundDownPow2 (RoundDownPow2 100) = RoundDownPow2 100
  /\ RoundDownPow2 100 <= 100
  /\ 100 < 2 * RoundDownPow2 100
  /\ RoundDownPow2 100 <= RoundDownPow2 127.
Proof.
  destruct (RoundDownPow2_props 100 127 ltac:(split; [discriminate | reflexivity]))
    as (H1 & H2 & H3 & H4 & _).
  split; [exact H1 |]. split; [exact H2 |]. split; [apply H3; reflexivity |].
  apply H4. split; [discriminate | reflexivity].
Defined.

(** ** Regions too small for a ring *)

(** X6.  When fewer than four bytes follow the header ([total_size] from
    16 to 19), every write whose [len + 4] does not wrap returns false and
    every read returns 0 and leaves the caller's buffer as it was; the region
    stays as the constructor left it. *)
Theorem tiny_ring_inert (m0 : Region) (total_size : Z) (ops : list Op) :
  wrap32 (total_size - kHeaderSize) < 4 ->
  Forall (fun op => match op with
                    | OpWrite _ len => 0 <= len /\ len + 4 < 2 ^ 32
                    | OpRead _ _ => True
                    end) ops ->
  run_out (fst (ByteRingBuffer_new m0 total_size true))
          (snd (ByteRingBuffer_new m0 total_size true)) ops
  = Some (map (fun op => match op with
                         | OpWrite _ _ => Wrote false
                         | OpRead out _ => Got 0 out
                         end) ops,
          snd (ByteRingBuffer_new m0 total_size true))
  /\ run (fst (ByteRingBuffer_new m0 total_size true))
         (snd (ByteRingBuffer_new m0 total_size true)) ops
     = Some (snd (ByteRingBuffer_new m0 total_size true)).
Proof.
  intros Hsmall Hops.
  set (rb := fst (ByteRingBuffer_new m0 total_size true)).
  set (m := snd (ByteRingBuffer_new m0 total_size true)).
  pose proof (wrap32_range (total_size - kHeaderSize)) as Hr.
  assert (Hcap : 0 <= capacity (header m) < 4).
  { unfold m, ByteRingBuffer_new. cbn [snd header capacity].
    pose proof (RoundDownPow2_range _ Hr).
    destruct (Z.eq_dec (wrap32 (total_size - kHeaderSize)) 0) as [E | N].
    - rewrite E. cbn. lia.
    - rewrite RoundDownPow2_log2 in * by lia.
      pose proof (Z.log2_spec (wrap32 (total_size - kHeaderSize)) ltac:(lia)). lia. }
  assert (Hr0 : ReadableBytes m = 0) by reflexivity.
  assert (Hw0 : WriteableBytes m = capacity (header m)).
  { unfold WriteableBytes. change (head (header m)) with 0.
    change (tail (header m)) with 0. change (wrap32 (0 - 0)) with 0.
    rewrite Z.sub_0_r. apply wrap32_small. lia. }
  induction Hops as [| op ops Hop _ [IH1 IH2]]; [split; reflexivity |].
  cbn [run run_out map]. destruct op as [src len | out max_len]; cbn [step step_out].
  - rewrite Write_no_room
      by (apply Z.ltb_lt; rewrite Hw0, wrap32_small by lia; lia).
    cbn [bind snd fst]. rewrite IH1. cbn [bind snd fst].
    split; [reflexivity | exact IH2].
  - rewrite Read_empty by lia. cbn [bind snd fst]. rewrite IH1. cbn [bind snd fst].
    split; [reflexivity | exact IH2].
Qed.

Lemma tiny_ring_inert_witness :
  run_out (fst (ByteRingBuffer_new (blank 3) 19 true))
          (snd (ByteRingBuffer_new (blank 3) 19 true))
          [OpWrite [Byte.x41] 1; OpRead (zeros 4) 4; OpWrite [] 0]
  = Some ([Wrote false; Got 0 (zeros 4); Wrote false],
          snd (ByteRingBuffer_new (blank 3) 19 true)).
Proof.
  refine (proj1 (tiny_ring_inert (blank 3) 19
                   [OpWrite [Byte.x41] 1; OpRead (zeros 4) 4; OpWrite [] 0] _ _)).
  - reflexivity.
  - repeat constructor; discriminate.
Defined.

(** X7.  The constructor does not compare [total_size] with the size of
    the header: below 16 the subtraction wraps and [Capacity()] is 2^31,
    whatever the region holds; over a data area of fewer than four bytes the
    first write that finds room in that capacity then copies past the end
    of the region. *)
Theorem short_total_size (m0 : Region) (total_size : Z) :
  0 <= total_size < kHeaderSize ->
  let rb := fst (ByteRingBuffer_new m0 total_size true) in
  let m := snd (ByteRingBuffer_new m0 total_size true) in
  Capacity m = 2 ^ 31
  /\ ((length (data m0) < 4)%nat ->
      forall src len, 0 <= len -> len + 4 <= 2 ^ 31 -> Write rb m src len = None).
Proof.
  intros Hts rb m. unfold kHeaderSize in Hts.
  assert (Hw : wrap32 (total_size - 16) = total_size - 16 + 2 ^ 32).
  { unfold wrap32. rewrite <- (Z.mod_add _ 1) by lia. apply Z.mod_small. lia. }
  assert (Hcap : Capacity m = 2 ^ 31).
  { unfold m. rewrite new_producer_capacity by (unfold kHeaderSize; lia).
    unfold kHeaderSize. f_equal. apply Z.log2_unique; lia. }
  split; [exact Hcap |].
  intros Hd src len Hlen Hfit. unfold Capacity in Hcap.
  unfold Write. unfold WriteableBytes. rewrite Hcap.
  change (head (header m)) with 0. change (tail (header m)) with 0.
  change (wrap32 (2 ^ 31 - wrap32 (0 - 0))) with (2 ^ 31).
  rewrite (wrap32_small (len + 4)) by lia.
  destruct (Z.ltb_spec (2 ^ 31) (len + 4)); [lia |].
  unfold WriteRaw at 1. rewrite Hcap. rewrite Z.land_0_l.
  change (wrap32 (2 ^ 31 - 0)) with (2 ^ 31).
  change (2 ^ 31 >=? 4) with true. cbv iota.
  unfold memcpy. change (data m) with (data m0).
  destruct (Z.leb_spec (0 + 4) (Z.of_nat (length (data m0)))); [lia |].
  cbn [andb Z.leb]. reflexivity.
Qed.

Lemma short_total_size_witness :
  Capacity (snd (ByteRingBuffer_new (blank 0) 8 true)) = 2147483648
  /\ Write (fst (ByteRingBuffer_new (blank 0) 8 true))
           (snd (ByteRingBuffer_new (blank 0) 8 true)) [Byte.x41] 1 = None.
Proof.
  destruct (short_total_size (blank 0) 8 ltac:(split; [discriminate | reflexivity]))
    as [H1 H2].
  split; [exact H1 |].
  apply H2; [cbn; lia | discriminate | discriminate].
Defined.

(** ** The ring as a queue *)

(** X8.  From the empty ring on, any interleaving of writes and reads
    whose buffers are as long as the caller says is defined (no copy leaves
    the data area or a buffer) and returns what the same operations return
    on a first-in first-out queue of payloads of [capacity] bytes; the ring
    ends up holding the frames of that queue. *)
Theorem run_refines_queue (rb : ByteRingBuffer) (ops : list Op) :
  forall (m : Region) (q : list (list byte)),
    holds rb m q ->
    Forall op_ok ops ->
    exists m',
      run_out rb m ops = Some (fst (queue_run (capacity (header m)) q ops), m')
      /\ holds rb m' (snd (queue_run (capacity (header m)) q ops))
      /\ capacity (header m') = capacity (header m).
Proof.
  induction ops as [| op ops IH]; intros m q Hh Hops.
  - exists m. cbn. auto.
  - inversion Hops as [| ? ? Hop Hops']; subst.
    assert (Hstep : exists m1,
               step_out rb m op = Some (fst (queue_step (capacity (header m)) q op), m1)
               /\ holds rb m1 (snd (queue_step (capacity (header m)) q op))
               /\ capacity (header m1) = capacity (header m)).
    { destruct op as [src len | out max_len]; cbn [step_out queue_step op_ok] in *.
      - destruct Hop as (H0 & H1 & H2).
        pose proof (holds_free rb m q Hh) as Hfree.
        destruct (Z.ltb_spec (capacity (header m) - frames_size q) (len + 4)).
        + rewrite Write_no_room by (apply Z.ltb_lt; rewrite wrap32_small; lia).
          exists m. cbn. auto.
        + destruct (Write_accept rb m q src len Hh H0 H2 ltac:(lia))
            as (m1 & E & Hh1 & _ & _ & Hc).
          rewrite E. exists m1. cbn. auto.
      - destruct q as [| f q].
        + rewrite Read_empty by (rewrite (holds_occ _ _ _ Hh); cbn; lia).
          exists m. cbn. auto.
        + destruct (Z.eqb_spec (Z.of_nat (length f)) 0) as [E0 | N0].
          * rewrite (Read_stuck rb m f q Hh out max_len E0). exists m. cbn. auto.
          * destruct (Z.gtb_spec (Z.of_nat (length f)) max_len) as [Hlt | Hge].
            -- destruct (Read_skip rb m f q Hh out max_len ltac:(lia) ltac:(lia))
                 as [E Hh1].
               rewrite E. eexists. cbn [bind fst snd]. split; [reflexivity |].
               split; [exact Hh1 | reflexivity].
            -- destruct (Read_deliver rb m f q Hh out max_len ltac:(lia) ltac:(lia)
                           ltac:(lia)) as [E Hh1].
               rewrite E. eexists. cbn [bind fst snd]. split; [reflexivity |].
               split; [exact Hh1 | reflexivity]. }
    destruct Hstep as (m1 & E1 & Hh1 & Hc1).
    destruct (IH m1 _ Hh1 Hops') as (m' & E' & Hh' & Hc').
    exists m'. cbn [run_out queue_run]. rewrite E1. cbn [bind fst snd].
    rewrite E', Hc1. cbn [bind fst snd]. rewrite Hc1 in Hh', Hc'.
    split; [reflexivity |]. split; [exact Hh' | exact Hc'].
Qed.

Lemma run_refines_queue_witness :
  exists m',
    run_out view16 (snd (ByteRingBuffer_new (blank 16) 32 true))
      [OpWrite (repeat Byte.x41 6) 6; OpRead (zeros 8) 8;
       OpWrite (repeat Byte.x42 8) 8; OpWrite (repeat Byte.x43 8) 8;
       OpRead (zeros 4) 4; OpRead (zeros 8) 8]
    = Some ([Wrote true; Got 6 (repeat Byte.x41 6 ++ zeros 2);
             Wrote true; Wrote false; Got 0 (zeros 4); Got 0 (zeros 8)], m')
    /\ holds view16 m' [].
Proof.
  destruct (run_refines_queue view16
              [OpWrite (repeat Byte.x41 6) 6; OpRead (zeros 8) 8;
               OpWrite (repeat Byte.x42 8) 8; OpWrite (repeat Byte.x43 8) 8;
               OpRead (zeros 4) 4; OpRead (zeros 8) 8]
              _ [] holds_empty16) as (m' & E & Hh & _).
  - repeat constructor; cbn; lia.
  - exists m'. split; [exact E | exact Hh].
Defined.

(** ** Two views of one region *)

(** X9.  A consumer-mode view leaves the region alone and takes its mask
    from the [capacity] word, whatever [total_size] it is given; bound to
    the region of a producer view, it reads back, in order, the payloads of
    at least one byte that the producer view wrote. *)
Theorem cross_view_roundtrip (m0 : Region) (total_size total_size' : Z)
    (msgs : list (list byte)) (bufs : list (list byte * Z))
    (flags : list bool) (m1 : Region) :
  0 < wrap32 (total_size - kHeaderSize) <= Z.of_nat (length (data m0)) ->
  Forall (fun p => p <> [] /\ Z.of_nat (length p) + 4 < 2 ^ 32) msgs ->
  write_seq (fst (ByteRingBuffer_new m0 total_size true))
            (snd (ByteRingBuffer_new m0 total_size true)) msgs = Some (flags, m1) ->
  Forall (eq true) flags ->
  Forall2 (fun p b => Z.of_nat (length p) <= snd b
                      /\ (length p <= length (fst b))%nat) msgs bufs ->
  snd (ByteRingBuffer_new m1 total_size' false) = m1
  /\ exists m2,
       read_seq (fst (ByteRingBuffer_new m1 total_size' false)) m1 bufs
       = Some (map (fun pb => delivered (fst pb) (snd pb)) (combine msgs bufs), m2)
       /\ ReadableBytes m2 = 0.
Proof.
  intros Hts Hok Hw Hacc Hb. split; [reflexivity |].
  pose proof (new_producer_holds m0 total_size Hts) as Hh.
  assert (Hh1 : holds (fst (ByteRingBuffer_new m0 total_size true)) m1 msgs).
  { apply (write_seq_accepted _ msgs _ [] flags m1 Hh); [| exact Hw | exact Hacc].
    eapply Forall_impl; [| exact Hok]. intros p [_ H]. exact H. }
  apply (holds_view _ (fst (ByteRingBuffer_new m1 total_size' false))) in Hh1.
  - destruct (read_seq_delivers _ msgs m1 bufs Hh1) as (m2 & E & Hh2);
      [eapply Forall_impl; [| exact Hok]; intros p [H _]; exact H | exact Hb |].
    exists m2. split; [exact E |]. exact (holds_occ _ _ _ Hh2).
  - unfold ByteRingBuffer_new at 1. cbn [fst mask_].
    pose proof (holds_wf _ _ _ Hh1) as Hwf.
    rewrite (wf_mask _ _ Hwf).
    pose proof (wf_cap_pos _ _ Hwf). pose proof (wf_cap_le _ _ Hwf).
    apply wrap32_small. lia.
Qed.

Lemma cross_view_roundtrip_witness :
  exists m1,
    write_seq view16 (snd (ByteRingBuffer_new (blank 16) 32 true))
      [[Byte.x41; Byte.x42]; [Byte.x43]] = Some ([true; true], m1)
    /\ exists m2,
         read_seq (fst (ByteRingBuffer_new m1 0 false)) m1 [(zeros 4, 4); (zeros 4, 4)]
         = Some ([(2, [Byte.x41; Byte.x42; Byte.x00; Byte.x00]);
                  (1, [Byte.x43; Byte.x00; Byte.x00; Byte.x00])], m2)
         /\ ReadableBytes m2 = 0.
Proof.
  assert (Hw : write_seq view16 (snd (ByteRingBuffer_new (blank 16) 32 true))
                 [[Byte.x41; Byte.x42]; [Byte.x43]]
               = Some ([true; true],
                       mkRegion (mkRingHeader 11 0 16 0)
                         (u32_bytes 2 ++ [Byte.x41; Byte.x42] ++ u32_bytes 1
                          ++ [Byte.x43] ++ zeros 5)))
    by (vm_compute; reflexivity).
  eexists. split; [exact Hw |].
  apply (proj2 (cross_view_roundtrip (blank 16) 32 0
                  [[Byte.x41; Byte.x42]; [Byte.x43]] [(zeros 4, 4); (zeros 4, 4)]
                  [true; true] _
                  ltac:(split; [reflexivity | discriminate])
                  ltac:(repeat constructor; discriminate)
                  Hw
                  ltac:(repeat constructor)
                  ltac:(repeat constructor; cbn; lia))).
Defined.

(** * Further properties of the region provider *)

(** ** Status and size after construction *)

(** X10.  After construction the object is valid exactly when its status
    is [kOk]; creating never reports [kOpenFailed], opening never reports
    [kCreationFailed] or [kTruncateFailed]; and [Size()] is the size that
    was asked for, except when an existing region is opened with size 0. *)
Theorem SharedMemory_status (env : PosixEnv) (name : list ascii) (size : Z)
    (persist : bool) :
  (exists s,
     SharedMemory_new env name size true persist = Some s
     /\ Valid s = match GetError s with kOk => true | _ => false end
     /\ GetError s <> kOpenFailed
     /\ Size s = size)
  /\ (exists s,
        SharedMemory_new env name size false persist = Some s
        /\ Valid s = match GetError s with kOk => true | _ => false end
        /\ GetError s <> kCreationFailed
        /\ GetError s <> kTruncateFailed
        /\ (size <> 0 -> Size s = size)).
Proof.
  split.
  - destruct (SharedMemory_new_defined env name size true persist) as (nm & _ & E).
    rewrite E. eexists. split; [reflexivity |].
    cbn [CreateOrOpen]. unfold PosixCreate, MapRegion.
    destruct (shm_create_ok env (c_str nm)); cbn [negb];
      [| cbn; repeat split; discriminate].
    destruct (ftruncate_ok env (c_str nm) size); cbn [negb];
      [| cbn; repeat split; discriminate].
    destruct (mmap_ok env (c_str nm) size); cbn; repeat split; discriminate.
  - destruct (SharedMemory_new_defined env name size false persist) as (nm & _ & E).
    rewrite E. eexists. split; [reflexivity |].
    cbn [CreateOrOpen].
    pose proof (PosixOpen_nonzero_size env (c_str nm) size) as Hsz.
    unfold PosixOpen, MapRegion in *.
    destruct (shm_open_ok env (c_str nm)); cbn [negb] in *;
      [| cbn; repeat split; try discriminate; auto].
    destruct (mmap_ok env (c_str nm) _); cbn [fst snd] in *; cbn;
      repeat split; try discriminate; exact Hsz.
Qed.

Lemma SharedMemory_status_witness :
  exists s,
    SharedMemory_new env_ok ring_name 80 false true = Some s
    /\ Valid s = true /\ GetError s = kOk /\ Size s = 80.
Proof.
  destruct (proj2 (SharedMemory_status env_ok ring_name 80 true))
    as (s & E & Hv & _ & _ & Hs).
  exists s. split; [exact E |].
  assert (E' : SharedMemory_new env_ok ring_name 80 false true
               = Some (mkSharedMemory true 80 kOk true false
                         (list_ascii_of_string "/ring" ++ repeat Ascii.zero 59)))
    by (vm_compute; reflexivity).
  rewrite E' in E. injection E as <-.
  split; [reflexivity |]. split; [reflexivity |]. apply Hs. discriminate.
Defined.

(** X11.  Opening with size 0 a region whose [fstat] fails or reports no
    bytes leaves [Size()] at 0: the mapping is then attempted with length
    0, and the object is valid exactly when that [mmap] succeeds. *)
Theorem autodetect_falls_back (env : PosixEnv) (name : list ascii) (persist : bool) :
  exists s,
    SharedMemory_new env name 0 false persist = Some s
    /\ (shm_open_ok env (Name s) = true ->
        (forall st, fstat_size env (Name s) = Some st -> st <= 0) ->
        Size s = 0 /\ Valid s = mmap_ok env (Name s) 0).
Proof.
  destruct (SharedMemory_new_defined env name 0 false persist) as (nm & _ & E).
  rewrite E. eexists. split; [reflexivity |].
  cbn [CreateOrOpen]. unfold PosixOpen, MapRegion, Name.
  destruct (shm_open_ok env (c_str nm)) eqn:Eo; cbn [negb].
  - cbn [Z.eqb].
    destruct (fstat_size env (c_str nm)) as [st |] eqn:Ef.
    + destruct (Z.gtb_spec st 0).
      * destruct (mmap_ok env (c_str nm) st); cbn [name_];
          intros _ Hst; specialize (Hst st Ef); lia.
      * destruct (mmap_ok env (c_str nm) 0) eqn:Em; cbn [name_ Size size_ Valid data_nonnull];
          intros _ _; rewrite ?Em; auto.
    + destruct (mmap_ok env (c_str nm) 0) eqn:Em; cbn [name_ Size size_ Valid data_nonnull];
        intros _ _; rewrite ?Em; auto.
  - cbn [name_]. intros H. rewrite Eo in H. discriminate.
Qed.

Lemma autodetect_falls_back_witness :
  exists s,
    SharedMemory_new env_empty ring_name 0 false true = Some s
    /\ Size s = 0 /\ Valid s = false.
Proof.
  destruct (autodetect_falls_back env_empty ring_name true) as (s & E & H).
  exists s. split; [exact E |].
  assert (E' : SharedMemory_new env_empty ring_name 0 false true
               = Some (mkSharedMemory false 0 kMappingFailed true false
                         (list_ascii_of_string "/ring" ++ repeat Ascii.zero 59)))
    by (vm_compute; reflexivity).
  rewrite E' in E. injection E as <-.
  apply H; [reflexivity |].
  intros st Hst. injection Hst as <-. discriminate.
Defined.

(** ** Names *)

Lemma stored_name_spec (name : list ascii) :
  stored_name name
  = Some (if Ascii.eqb (hd Ascii.zero name) "/"%char
          then firstn 63 (c_str name)
          else "/"%char :: firstn 62 (c_str name)).
Proof.
  unfold stored_name. destruct (NormalizeName_array name) as [rest E].
  rewrite E. cbn [bind]. f_equal.
  destruct (Ascii.eqb (hd Ascii.zero name) "/"%char).
  - apply c_str_firstn_nul.
  - cbn [app c_str]. change (Ascii.eqb "/"%char Ascii.zero) with false. cbv iota.
    f_equal. apply c_str_firstn_nul.
Qed.

Lemma c_str_idem (s : list ascii) : c_str (c_str s) = c_str s.
Proof.
  induction s as [| c s IH]; cbn [c_str]; [reflexivity |].
  destruct (Ascii.eqb c Ascii.zero) eqn:E; [reflexivity |].
  cbn [c_str]. rewrite E. f_equal. exact IH.
Qed.

Lemma c_str_firstn (s : list ascii) (n : nat) :
  c_str (firstn n (c_str s)) = firstn n (c_str s).
Proof.
  revert n. induction s as [| c s IH]; intros n; cbn [c_str].
  - rewrite firstn_nil. reflexivity.
  - destruct (Ascii.eqb c Ascii.zero) eqn:E.
    + rewrite firstn_nil. reflexivity.
    + destruct n as [| n]; cbn [firstn c_str]; [reflexivity |].
      rewrite E. f_equal. apply IH.
Qed.

Lemma c_str_hd_slash (s : list ascii) :
  Ascii.eqb (hd Ascii.zero s) "/"%char = true ->
  exists r, s = "/"%char :: r /\ c_str s = "/"%char :: c_str r.
Proof.
  destruct s as [| c r]; cbn [hd]; [discriminate |].
  intros E. apply Ascii.eqb_eq in E. subst c. exists r. split; reflexivity.
Qed.

Lemma c_str_slash_cons (r : list ascii) : c_str ("/"%char :: r) = "/"%char :: c_str r.
Proof. reflexivity. Qed.

Lemma firstn_63_cons (c : ascii) (l : list ascii) :
  firstn 63 (c :: l) = c :: firstn 62 l.
Proof. reflexivity. Qed.

Lemma stored_name_slash (r : list ascii) :
  stored_name ("/"%char :: r) = Some ("/"%char :: firstn 62 (c_str r)).
Proof.
  rewrite stored_name_spec. cbn [hd].
  change (Ascii.eqb "/"%char "/"%char) with true. cbv iota.
  rewrite c_str_slash_cons, firstn_63_cons. reflexivity.
Qed.

(** X12.  The name kept on POSIX starts with a slash, has at most 63
    characters, and is a fixed point of the normalisation; a name given
    with and without its leading slash is kept as the same name; and names
    without a leading slash that fit in 62 characters are kept apart. *)
Theorem stored_name_props (name : list ascii) :
  (exists n,
     stored_name name = Some n
     /\ hd Ascii.zero n = "/"%char
     /\ (length n <= 63)%nat
     /\ stored_name n = Some n)
  /\ (Ascii.eqb (hd Ascii.zero name) "/"%char = false ->
      stored_name ("/"%char :: name) = stored_name name)
  /\ (forall name',
        Ascii.eqb (hd Ascii.zero name) "/"%char = false ->
        Ascii.eqb (hd Ascii.zero name') "/"%char = false ->
        (length (c_str name) <= 62)%nat -> (length (c_str name') <= 62)%nat ->
        stored_name name = stored_name name' ->
        c_str name = c_str name').
Proof.
  assert (Hfix : forall cs : list ascii,
            stored_name ("/"%char :: firstn 62 (c_str cs))
            = Some ("/"%char :: firstn 62 (c_str cs))).
  { intros cs. rewrite stored_name_slash, c_str_firstn. do 2 f_equal.
    apply firstn_all2. rewrite length_firstn. lia. }
  assert (Hlen : forall cs : list ascii,
            (length ("/"%char :: firstn 62 (c_str cs)) <= 63)%nat).
  { intros cs. cbn [length]. rewrite length_firstn. lia. }
  split; [| split].
  - destruct (Ascii.eqb (hd Ascii.zero name) "/"%char) eqn:E.
    + destruct (c_str_hd_slash name E) as (r & -> & _).
      rewrite stored_name_slash. eexists. split; [reflexivity |].
      split; [reflexivity |]. split; [apply Hlen | apply Hfix].
    + rewrite stored_name_spec, E. eexists. split; [reflexivity |].
      split; [reflexivity |]. split; [apply Hlen | apply Hfix].
  - intros E. rewrite stored_name_slash, stored_name_spec, E. reflexivity.
  - intros name' E E' Hl Hl' Heq. rewrite !stored_name_spec, E, E' in Heq.
    rewrite <- (firstn_all2 (c_str name) (n := 62)) by lia.
    rewrite <- (firstn_all2 (c_str name') (n := 62)) by lia.
    congruence.
Qed.

Lemma stored_name_props_witness :
  stored_name (list_ascii_of_string "/ring") = stored_name ring_name
  /\ stored_name ring_name = Some (list_ascii_of_string "/ring")
  /\ c_str ring_name = c_str (list_ascii_of_string "ring").
Proof.
  destruct (stored_name_props ring_name) as (_ & H2 & H3).
  split; [apply H2; reflexivity |].
  split; [reflexivity |].
  apply H3; try reflexivity; cbn; lia.
Defined.

(** The copy that both branches of [NormalizeName] end with. *)
Lemma copy_truncated (src : list ascii) :
  exists rest,
    (a <- memcpy (repeat Ascii.zero (Z.to_nat sizeof_name_)) 0 src 0
            (if strlen src >? sizeof_name_ - 1 then sizeof_name_ - 1 else strlen src) ;;
     store a (if strlen src >? sizeof_name_ - 1 then sizeof_name_ - 1 else strlen src)
           Ascii.zero)
    = Some (firstn 63 (c_str src) ++ Ascii.zero :: rest).
Proof.
  set (arr := repeat Ascii.zero (Z.to_nat sizeof_name_)).
  assert (Harr : length arr = 64%nat) by reflexivity.
  pose proof (c_str_length src) as Hcl.
  pose proof (c_str_prefix src) as Hpre.
  unfold strlen, sizeof_name_.
  set (k := Nat.min (length (c_str src)) 63).
  assert (Hk : (if Z.of_nat (length (c_str src)) >? 64 - 1 then 64 - 1
                else Z.of_nat (length (c_str src))) = Z.of_nat k).
  { destruct (Z.gtb_spec (Z.of_nat (length (c_str src))) (64 - 1)); unfold k; lia. }
  rewrite Hk.
  assert (Hfk : firstn k src = firstn 63 (c_str src)).
  { rewrite <- (firstn_min_length (c_str src) 63). fold k.
    transitivity (firstn k (firstn (length (c_str src)) src)).
    - rewrite firstn_firstn. f_equal. unfold k. lia.
    - rewrite Hpre. reflexivity. }
  rewrite memcpy_ok by (rewrite ?Harr; unfold k; lia).
  cbn [bind]. change (Z.to_nat 0) with 0%nat. cbn [firstn skipn app].
  rewrite Z.add_0_l, Nat2Z.id, Hfk.
  unfold store.
  assert (Hl : length (firstn 63 (c_str src) ++ skipn k arr) = 64%nat).
  { rewrite <- Hfk, length_app, length_firstn, length_skipn, Harr. unfold k. lia. }
  rewrite Hl.
  destruct (Z.leb_spec 0 (Z.of_nat k)); [| lia].
  destruct (Z.ltb_spec (Z.of_nat k) (Z.of_nat 64)); [| unfold k in *; lia].
  cbn [andb]. rewrite Nat2Z.id.
  rewrite firstn_app_exact by (rewrite <- Hfk, length_firstn; unfold k; lia).
  eexists. reflexivity.
Qed.

Lemma stored_name_win32_spec (name : list ascii) :
  stored_name_win32 name
  = Some (firstn 63 (c_str (if Ascii.eqb (hd Ascii.zero name) "/"%char
                            then tl name else name))).
Proof.
  unfold stored_name_win32, NormalizeName_win32.
  destruct (copy_truncated (if Ascii.eqb (hd Ascii.zero name) "/"%char
                            then tl name else name)) as [rest E].
  rewrite E. cbn [bind]. f_equal. apply c_str_firstn_nul.
Qed.

(** X13.  The Win32 branch keeps the first 63 characters of the name
    without one leading slash.  As long as that name has at most 62
    characters, the POSIX name is the Win32 name behind a slash; beyond, the
    POSIX name is one character shorter. *)
Theorem stored_name_win32_props (name : list ascii) :
  let src := if Ascii.eqb (hd Ascii.zero name) "/"%char then tl name else name in
  stored_name_win32 name = Some (firstn 63 (c_str src))
  /\ stored_name name = Some ("/"%char :: firstn 62 (c_str src))
  /\ ((length (c_str src) <= 62)%nat ->
      stored_name_win32 name = Some (c_str src)
      /\ stored_name name = Some ("/"%char :: c_str src)).
Proof.
  intros src.
  assert (Hp : stored_name name = Some ("/"%char :: firstn 62 (c_str src))).
  { rewrite stored_name_spec. unfold src.
    destruct (Ascii.eqb (hd Ascii.zero name) "/"%char) eqn:E; [| reflexivity].
    destruct (c_str_hd_slash name E) as (r & -> & Hc).
    rewrite Hc, firstn_63_cons. reflexivity. }
  split; [apply stored_name_win32_spec |]. split; [exact Hp |].
  intros Hl. rewrite stored_name_win32_spec, Hp. fold src.
  rewrite !firstn_all2 by lia. split; reflexivity.
Qed.

Lemma stored_name_win32_props_witness :
  stored_name_win32 (list_ascii_of_string "/ring") = Some ring_name
  /\ stored_name (list_ascii_of_string "/ring") = Some ("/"%char :: ring_name).
Proof.
  apply (proj2 (proj2 (stored_name_win32_props (list_ascii_of_string "/ring")))).
  cbn. lia.
Defined.

(** * Further properties of the facades *)

Lemma SharedMemory_create_size (env : PosixEnv) (name : list ascii) (size : Z)
    (persist : bool) (s : SharedMemory) :
  SharedMemory_new env name size true persist = Some s -> Size s = size.
Proof.
  destruct (SharedMemory_new_defined env name size true persist) as (nm & _ & E).
  rewrite E. cbn [CreateOrOpen]. unfold PosixCreate, MapRegion.
  destruct (shm_create_ok env (c_str nm)); cbn [negb];
    [| intros H; injection H as <-; reflexivity].
  destruct (ftruncate_ok env (c_str nm) size); cbn [negb];
    [| intros H; injection H as <-; reflexivity].
  destruct (mmap_ok env (c_str nm) size); intros H; injection H as <-; reflexivity.
Qed.

Lemma ShmProducer_new_inv (env : PosixEnv) (m : Region) (name : list ascii) (R : Z)
    (p : ShmProducer) (m' : Region) :
  ShmProducer_new env m name R = Some (p, m') ->
  (Valid (prod_shm_ p) = true
   /\ prod_ring_ p
      = Some (fst (ByteRingBuffer_new m (wrap32 (R + kHeaderSize)) true))
   /\ m' = snd (ByteRingBuffer_new m (wrap32 (R + kHeaderSize)) true))
  \/ (Valid (prod_shm_ p) = false /\ prod_ring_ p = None /\ m' = m).
Proof.
  unfold ShmProducer_new.
  destruct (SharedMemory_new env name (wrap32 (R + kHeaderSize)) true true)
    as [shm |] eqn:Eshm; cbn [bind]; [| discriminate].
  pose proof (SharedMemory_create_size _ _ _ _ _ Eshm) as Hsize.
  destruct (Valid shm) eqn:Ev.
  - rewrite Hsize, wrap32_idem. unfold ByteRingBuffer_new.
    intros H. injection H as <- <-. left. cbn [prod_shm_ prod_ring_ fst snd]. auto.
  - intros H. injection H as <- <-. right. cbn [prod_shm_ prod_ring_]. auto.
Qed.

Lemma ShmConsumer_new_inv (env : PosixEnv) (m : Region) (name : list ascii) (size : Z)
    (c : ShmConsumer) (m' : Region) :
  ShmConsumer_new env m name size = Some (c, m') ->
  m' = m
  /\ ((Valid (cons_shm_ c) = true
       /\ cons_ring_ c
          = Some (mkByteRingBuffer (wrap32 (capacity (header m) - 1)) false))
      \/ (Valid (cons_shm_ c) = false /\ cons_ring_ c = None)).
Proof.
  unfold ShmConsumer_new.
  destruct (SharedMemory_new env name (ShmConsumer_shm_size size) false true)
    as [shm |] eqn:Eshm; cbn [bind]; [| discriminate].
  destruct (Valid shm) eqn:Ev.
  - unfold ByteRingBuffer_new. intros H. injection H as <- <-.
    split; [reflexivity |]. left. cbn [cons_shm_ cons_ring_]. auto.
  - intros H. injection H as <- <-.
    split; [reflexivity |]. right. cbn [cons_shm_ cons_ring_]. auto.
Qed.

Lemma ShmConsumer_new_size (env : PosixEnv) (m : Region) (name : list ascii) (size : Z)
    (c : ShmConsumer) (m' : Region) :
  ShmConsumer_new env m name size = Some (c, m') ->
  Size (cons_shm_ c) = ShmConsumer_shm_size size.
Proof.
  unfold ShmConsumer_new.
  destruct (SharedMemory_new_defined env name (ShmConsumer_shm_size size) false true)
    as (nm & _ & E).
  rewrite E. cbn [bind].
  assert (Hne : ShmConsumer_shm_size size <> 0).
  { unfold ShmConsumer_shm_size. destruct (Z.gtb_spec size 0); [lia | discriminate]. }
  pose proof (PosixOpen_nonzero_size env (c_str nm) _ Hne) as Hs.
  unfold CreateOrOpen.
  destruct (PosixOpen env (c_str nm) (ShmConsumer_shm_size size)) as [[ok sz] e].
  cbn [fst snd] in Hs. subst sz.
  destruct (Valid _); intros H; injection H as <- _; reflexivity.
Qed.

(** X14.  A facade is valid exactly when its region provider is.  A
    producer facade whose provider failed leaves the region alone, reports
    capacity and room 0 and turns every write away; a consumer facade never
    changes the region when it is constructed, and one whose provider failed
    reports no data and returns 0 from every read. *)
Theorem facade_invalid_inert :
  (forall env m name R p m',
     ShmProducer_new env m name R = Some (p, m') ->
     ShmProducer_IsValid p = Valid (prod_shm_ p)
     /\ (ShmProducer_IsValid p = false ->
         m' = m
         /\ ShmProducer_Capacity p m' = 0
         /\ ShmProducer_WriteableBytes p m' = 0
         /\ forall src len, ShmProducer_Write p m' src len = Some (false, m')))
  /\ (forall env m name size c m',
        ShmConsumer_new env m name size = Some (c, m') ->
        ShmConsumer_IsValid c = Valid (cons_shm_ c)
        /\ m' = m
        /\ (ShmConsumer_IsValid c = false ->
            ShmConsumer_HasData c m' = false
            /\ ShmConsumer_ReadableBytes c m' = 0
            /\ ShmConsumer_Capacity c m' = 0
            /\ forall out max_len,
                 ShmConsumer_Read c m' out max_len = Some (0, out, m'))).
Proof.
  split.
  - intros env m name R p m' Hnew.
    unfold ShmProducer_IsValid, ShmProducer_Capacity, ShmProducer_WriteableBytes,
      ShmProducer_Write.
    destruct (ShmProducer_new_inv _ _ _ _ _ _ Hnew) as [(Hv & Hr & Hm) | (Hv & Hr & Hm)];
      rewrite Hr, Hv.
    + split; [reflexivity | discriminate].
    + split; [reflexivity |]. intros _. auto.
  - intros env m name size c m' Hnew.
    unfold ShmConsumer_IsValid, ShmConsumer_HasData, ShmConsumer_ReadableBytes,
      ShmConsumer_Capacity, ShmConsumer_Read.
    destruct (ShmConsumer_new_inv _ _ _ _ _ _ Hnew) as (Hm & [(Hv & Hr) | (Hv & Hr)]);
      rewrite Hr, Hv.
    + split; [reflexivity |]. split; [exact Hm | discriminate].
    + split; [reflexivity |]. split; [exact Hm |]. intros _. auto.
Qed.

Lemma facade_invalid_inert_witness :
  exists p c,
    ShmProducer_new env_down (blank 64) ring_name 64 = Some (p, blank 64)
    /\ ShmProducer_Write p (blank 64) hello 5 = Some (false, blank 64)
    /\ ShmConsumer_new env_down (blank 64) ring_name 0 = Some (c, blank 64)
    /\ ShmConsumer_Read c (blank 64) (zeros 8) 8 = Some (0, zeros 8, blank 64).
Proof.
  assert (Hp : ShmProducer_new env_down (blank 64) ring_name 64
               = Some (mkShmProducer
                         (mkSharedMemory false 80 kCreationFailed true true ring_name_)
                         None, blank 64)) by (vm_compute; reflexivity).
  assert (Hc : ShmConsumer_new env_down (blank 64) ring_name 0
               = Some (mkShmConsumer
                         (mkSharedMemory false 6220816 kOpenFailed true false ring_name_)
                         None, blank 64)) by (vm_compute; reflexivity).
  eexists. eexists. split; [exact Hp |].
  destruct (proj1 facade_invalid_inert _ _ _ _ _ _ Hp) as (_ & H1).
  destruct (proj2 facade_invalid_inert _ _ _ _ _ _ Hc) as (_ & _ & H2).
  split; [apply H1; reflexivity |]. split; [exact Hc |].
  apply H2. reflexivity.
Defined.

(** X15.  End to end: over a region with room for the requested data
    area, what a valid producer facade writes is what a valid consumer
    facade bound to that region reads, for every size hint under which the
    consumer's mapping covers the header and the data area of the ring (the
    consumer maps the number of bytes of its hint, 6220816 for a hint of 0,
    and takes the capacity from the header); afterwards the consumer reports
    no data. *)
Theorem facade_roundtrip (env env' : PosixEnv) (m0 : Region) (name name' : list ascii)
    (R hint : Z) (payload out : list byte) (max_len : Z)
    (p : ShmProducer) (m1 : Region) :
  4 <= R -> R + kHeaderSize < 2 ^ 32 -> R <= Z.of_nat (length (data m0)) ->
  ShmProducer_new env m0 name R = Some (p, m1) ->
  ShmProducer_IsValid p = true ->
  payload <> [] ->
  Z.of_nat (length payload) + 4 <= ShmProducer_Capacity p m1 ->
  Z.of_nat (length payload) <= max_len -> (length payload <= length out)%nat ->
  exists m2,
    ShmProducer_Write p m1 payload (Z.of_nat (length payload)) = Some (true, m2)
    /\ forall c m3,
         ShmConsumer_new env' m2 name' hint = Some (c, m3) ->
         ShmConsumer_IsValid c = true ->
         kHeaderSize + Capacity m2 <= ShmConsumer_shm_size hint ->
         m3 = m2
         /\ Size (cons_shm_ c) = ShmConsumer_shm_size hint
         /\ ShmConsumer_HasData c m3 = true
         /\ exists m4,
              ShmConsumer_Read c m3 out max_len
              = Some (Z.of_nat (length payload), payload ++ skipn (length payload) out, m4)
              /\ ShmConsumer_HasData c m4 = false.
Proof.
  intros HR HR' Hdata Hnew Hvalid Hne Hfit Hmax Hout.
  unfold ShmProducer_IsValid, ShmProducer_Capacity, ShmProducer_Write in *.
  destruct (ShmProducer_new_inv _ _ _ _ _ _ Hnew) as [(Hv & Hr & Hm) | (Hv & Hr & Hm)];
    rewrite Hr in *; [| discriminate].
  rewrite (wrap32_small (R + kHeaderSize)) in * by (unfold kHeaderSize in *; lia).
  assert (Hh : holds (fst (ByteRingBuffer_new m0 (R + kHeaderSize) true)) m1 []).
  { rewrite Hm. apply new_producer_holds.
    replace (R + kHeaderSize - kHeaderSize) with R by lia.
    rewrite wrap32_small by (unfold kHeaderSize in *; lia). lia. }
  set (rb := fst (ByteRingBuffer_new m0 (R + kHeaderSize) true)) in *.
  assert (H1 : 1 <= Z.of_nat (length payload))
    by (destruct payload; [congruence | cbn; lia]).
  pose proof (holds_free rb m1 [] Hh) as Hfree. cbn [frames_size] in Hfree.
  unfold Capacity in Hfit.
  destruct (Write_accept rb m1 [] payload (Z.of_nat (length payload)) Hh
              ltac:(lia) ltac:(lia) ltac:(lia)) as (m2 & E & Hh2 & _).
  rewrite Nat2Z.id, firstn_all in Hh2. cbn [app] in Hh2.
  exists m2. split; [exact E |].
  intros c m3 Hc Hcv Hcover.
  unfold ShmConsumer_IsValid, ShmConsumer_HasData, ShmConsumer_Read in *.
  pose proof (ShmConsumer_new_size _ _ _ _ _ _ Hc) as Hsz.
  destruct (ShmConsumer_new_inv _ _ _ _ _ _ Hc) as (-> & [(Hv' & Hr') | (Hv' & Hr')]);
    rewrite Hr' in *; [| discriminate].
  split; [reflexivity |]. split; [exact Hsz |].
  apply (holds_view rb (mkByteRingBuffer (wrap32 (capacity (header m2) - 1)) false))
    in Hh2.
  - split.
    + unfold HasData. rewrite (front_available _ _ _ _ Hh2). cbn [frames_size].
      destruct (Z.geb_spec (Z.of_nat (length payload) + 4 + 0) 4); [reflexivity | lia].
    + destruct (Read_deliver _ m2 payload [] Hh2 out max_len H1 Hmax ltac:(lia))
        as [Er Hh4].
      eexists. split; [exact Er |].
      unfold HasData. rewrite (holds_occ _ _ _ Hh4). reflexivity.
  - cbn [mask_]. pose proof (holds_wf _ _ _ Hh2) as Hwf.
    rewrite (wf_mask _ _ Hwf).
    pose proof (wf_cap_pos _ _ Hwf). pose proof (wf_cap_le _ _ Hwf).
    apply wrap32_small. lia.
Qed.

Lemma facade_roundtrip_witness :
  ShmProducer_new env_ok (blank 64) ring_name 64 = Some (prod64, region64)
  /\ ShmProducer_Write prod64 region64 hello 5 = Some (true, hello64)
  /\ ShmConsumer_new env_ok hello64 ring_name 0 = Some (cons64, hello64)
  /\ exists m4,
       ShmConsumer_Read cons64 hello64 (zeros 8) 8 = Some (5, hello ++ zeros 3, m4)
       /\ ShmConsumer_HasData cons64 m4 = false.
Proof.
  assert (Hp : ShmProducer_new env_ok (blank 64) ring_name 64 = Some (prod64, region64))
    by (vm_compute; reflexivity).
  assert (Hw : ShmProducer_Write prod64 region64 hello 5 = Some (true, hello64))
    by (vm_compute; reflexivity).
  assert (Hc : ShmConsumer_new env_ok hello64 ring_name 0 = Some (cons64, hello64))
    by (vm_compute; reflexivity).
  split; [exact Hp |]. split; [exact Hw |]. split; [exact Hc |].
  destruct (facade_roundtrip env_ok env_ok (blank 64) ring_name ring_name 64 0
              hello (zeros 8) 8 prod64 region64
              ltac:(discriminate) ltac:(reflexivity) ltac:(cbn; lia) Hp
              ltac:(reflexivity) ltac:(discriminate) ltac:(discriminate)
              ltac:(discriminate) ltac:(cbn; lia)) as (m2 & E & H).
  change (Z.of_nat (length hello)) with 5 in E. rewrite Hw in E. injection E as <-.
  destruct (H cons64 hello64 Hc eq_refl ltac:(vm_compute; discriminate)) as (_ & _ & _ & m4 & Er & Hd).
  exists m4. split; [exact Er | exact Hd].
Defined.

(** * The life of a region provider *)

Lemma open_fds_app (a b : list Syscall) : open_fds (a ++ b) = open_fds a + open_fds b.
Proof.
  induction a as [| e a IH]; cbn [app open_fds]; [lia |].
  destruct e as [| ? ? [|] | | | | |]; lia.
Qed.

Lemma live_maps_app (a b : list Syscall) : live_maps (a ++ b) = live_maps a + live_maps b.
Proof.
  induction a as [| e a IH]; cbn [app live_maps]; [lia |].
  destruct e as [| | | | ? [|] | |]; lia.
Qed.

Lemma unlinked_app (a b : list Syscall) : unlinked (a ++ b) = unlinked a ++ unlinked b.
Proof.
  induction a as [| e a IH]; cbn [app unlinked]; [reflexivity |].
  destruct e; cbn [app]; congruence.
Qed.

Lemma NormalizeName_hd (name nm : list ascii) :
  NormalizeName (repeat Ascii.zero (Z.to_nat sizeof_name_)) name = Some nm ->
  hd Ascii.zero nm = "/"%char /\ stored_name name = Some (c_str nm).
Proof.
  intros E. split; [| unfold stored_name; rewrite E; reflexivity].
  destruct (NormalizeName_array name) as [rest E'].
  assert (Hnm : nm = (if Ascii.eqb (hd Ascii.zero name) "/"%char
                      then firstn 63 (c_str name)
                      else "/"%char :: firstn 62 (c_str name)) ++ Ascii.zero :: rest)
    by congruence.
  rewrite Hnm.
  destruct (Ascii.eqb (hd Ascii.zero name) "/"%char) eqn:Es; [| reflexivity].
  destruct (c_str_hd_slash name Es) as (r & _ & Hc).
  rewrite Hc, firstn_63_cons. reflexivity.
Qed.

Lemma Handle_new_defined (env : PosixEnv) (name : list ascii) (size : Z)
    (create persist : bool) :
  exists nm,
    NormalizeName (repeat Ascii.zero (Z.to_nat sizeof_name_)) name = Some nm
    /\ Handle_new env name size create persist
       = Some (let '(ok, fd, sz, e, tr) :=
                 if create then PosixCreate_tr env (c_str nm) size
                 else PosixOpen_tr env (c_str nm) size in
               (mkHandle (mkSharedMemory ok sz e persist create nm) fd, tr)).
Proof.
  destruct (NormalizeName_array name) as [rest E].
  eexists. split; [exact E |].
  unfold Handle_new. rewrite E. cbn [bind].
  destruct (if create then _ else _) as [[[[ok fd] sz] e] tr]. reflexivity.
Qed.

Ltac break_calls :=
  repeat match goal with
         | |- context [shm_create_ok ?e ?n] => destruct (shm_create_ok e n)
         | |- context [shm_open_ok ?e ?n] => destruct (shm_open_ok e n)
         | |- context [ftruncate_ok ?e ?n ?s] => destruct (ftruncate_ok e n s)
         | |- context [fstat_size ?e ?n] => destruct (fstat_size e n)
         | |- context [mmap_ok ?e ?n ?s] => destruct (mmap_ok e n s)
         | |- context [?a =? ?b] => destruct (a =? b)
         | |- context [?a >? ?b] => destruct (a >? b)
         end.

(** X16.  However construction ends, no descriptor and no mapping is
    lost: the descriptor is open exactly when the object is valid, the calls
    of the constructor leave one descriptor and one mapping open in that
    case and none otherwise, [Close] releases both, and a second [Close]
    makes no call.  The object is the one of the model without calls. *)
Theorem lifetime_balanced (env : PosixEnv) (name : list ascii) (size : Z)
    (create persist : bool) :
  exists h tr,
    Handle_new env name size create persist = Some (h, tr)
    /\ SharedMemory_new env name size create persist = Some (obj h)
    /\ fd_open h = Valid (obj h)
    /\ open_fds tr = (if Valid (obj h) then 1 else 0)
    /\ live_maps tr = (if Valid (obj h) then 1 else 0)
    /\ open_fds (tr ++ snd (Close h)) = 0
    /\ live_maps (tr ++ snd (Close h)) = 0
    /\ Valid (obj (fst (Close h))) = false
    /\ snd (Close (fst (Close h))) = [].
Proof.
  destruct (Handle_new_defined env name size create persist) as (nm & En & E).
  rewrite E. unfold SharedMemory_new. rewrite En. cbn [bind].
  unfold CreateOrOpen, PosixCreate, PosixOpen, MapRegion,
    PosixCreate_tr, PosixOpen_tr, MapRegion_tr, Close, Destroy.
  destruct create, persist; break_calls; cbn;
    (eexists; eexists; split; [reflexivity |]; cbn;
     repeat split; try reflexivity;
     destruct (Ascii.eqb (hd Ascii.zero nm) Ascii.zero); reflexivity).
Qed.

(** X17.  [Destroy] unlinks the kept name, once.  [Close] unlinks it only
    for a valid object that was created without [persist]; with
    [persist = true], which is what both facades pass, destruction never
    unlinks the region. *)
Theorem unlink_policy (env : PosixEnv) (name : list ascii) (size : Z)
    (create persist : bool) (h : Handle) (tr : list Syscall) :
  Handle_new env name size create persist = Some (h, tr) ->
  stored_name name = Some (Name (obj h))
  /\ Destroy h = [Sys_shm_unlink (Name (obj h))]
  /\ unlinked (snd (Close h))
     = (if Valid (obj h) && negb persist && create then [Name (obj h)] else []).
Proof.
  destruct (Handle_new_defined env name size create persist) as (nm & En & E).
  rewrite E. destruct (NormalizeName_hd name nm En) as [Hhd Hst].
  destruct (if create then _ else _) as [[[[ok fd] sz] e] tr0].
  intros H. injection H as <- <-.
  unfold Name, Close, Destroy, Valid. cbn [obj name_ data_nonnull persist_ create_ size_ fd_open].
  rewrite Hhd. change (Ascii.eqb "/"%char Ascii.zero) with false. cbv iota.
  split; [exact Hst |]. split; [reflexivity |].
  destruct ok; cbn [negb andb snd]; [| reflexivity].
  rewrite !unlinked_app. destruct fd, persist, create; reflexivity.
Qed.

Lemma unlink_policy_witness :
  exists h tr,
    Handle_new env_ok ring_name 80 true true = Some (h, tr)
    /\ Destroy h = [Sys_shm_unlink (list_ascii_of_string "/ring")]
    /\ unlinked (snd (Close h)) = [].
Proof.
  assert (H : Handle_new env_ok ring_name 80 true true
              = Some (mkHandle (mkSharedMemory true 80 kOk true true ring_name_) true,
                      [Sys_shm_unlink (list_ascii_of_string "/ring");
                       Sys_shm_open (list_ascii_of_string "/ring") true true;
                       Sys_ftruncate 80 true; Sys_mmap 80 true]))
    by (vm_compute; reflexivity).
  eexists. eexists. split; [exact H |].
  destruct (unlink_policy _ _ _ _ _ _ _ H) as (_ & H2 & H3).
  split; [exact H2 | exact H3].
Defined.

Lemma length_put (st : Store) (a : nat) (h : Handle) : length (put st a h) = length st.
Proof.
  revert a. induction st as [| x r IH]; intros [| a]; cbn [put length]; auto.
Qed.

Lemma nth_error_put_eq (st : Store) (a : nat) (h x : Handle) :
  nth_error st a = Some x -> nth_error (put st a h) a = Some h.
Proof.
  revert a. induction st as [| y r IH]; intros [| a]; cbn [put nth_error];
    try discriminate; auto.
Qed.

Lemma nth_error_put_ne (st : Store) (a b : nat) (h : Handle) :
  a <> b -> nth_error (put st a h) b = nth_error st b.
Proof.
  revert a b. induction st as [| y r IH]; intros [| a] [| b] Hne; cbn [put nth_error];
    try reflexivity; try congruence.
  apply IH. congruence.
Qed.

Lemma put_same (st : Store) (a : nat) (x : Handle) :
  nth_error st a = Some x -> put st a x = st.
Proof.
  revert a. induction st as [| y r IH]; intros [| a]; cbn [put nth_error];
    try discriminate.
  - intros E. injection E as ->. reflexivity.
  - intros E. rewrite (IH _ E). reflexivity.
Qed.

(** Replacing the object at an address trades its destructor's calls for
    those of the new object. *)
Lemma destroy_all_put (st : Store) (a : nat) (x h : Handle) :
  nth_error st a = Some x ->
  Permutation (destroy_all (put st a h) ++ snd (Close x))
              (snd (Close h) ++ destroy_all st).
Proof.
  unfold destroy_all.
  revert a. induction st as [| y r IH]; intros [| a]; cbn [put nth_error flat_map];
    try discriminate.
  - intros E. injection E as ->.
    rewrite <- app_assoc. apply Permutation_app_head. apply Permutation_app_comm.
  - intros E. specialize (IH _ E).
    rewrite <- app_assoc.
    eapply Permutation_trans; [apply Permutation_app_head; exact IH |].
    rewrite !app_assoc. apply Permutation_app_tail. apply Permutation_app_comm.
Qed.

Lemma MoveFrom_fst (h : Handle) : fst (MoveFrom h) = h.
Proof. destruct h as [[d sz e ps cr nm] fd]. reflexivity. Qed.

Lemma MoveFrom_snd_Close (h : Handle) : Close (snd (MoveFrom h)) = (snd (MoveFrom h), []).
Proof. reflexivity. Qed.

Lemma MoveFrom_snd_Destroy (h : Handle) : Destroy (snd (MoveFrom h)) = [].
Proof.
  unfold Destroy, MoveFrom. cbn [snd obj name_].
  destruct (name_ (obj h)); reflexivity.
Qed.

Lemma Close_fst_Close (h : Handle) : snd (Close (fst (Close h))) = [].
Proof.
  unfold Close. destruct (data_nonnull (obj h)) eqn:E; cbn [negb fst].
  - reflexivity.
  - rewrite E. reflexivity.
Qed.

Lemma live_maps_perm (a b : list Syscall) :
  Permutation a b -> live_maps a = live_maps b.
Proof.
  induction 1 as [| x l l' _ IH | x y l | l l' l'' _ IH1 _ IH2].
  - reflexivity.
  - change (x :: l) with ([x] ++ l). change (x :: l') with ([x] ++ l').
    rewrite !live_maps_app. lia.
  - change (y :: x :: l) with ([y] ++ [x] ++ l).
    change (x :: y :: l) with ([x] ++ [y] ++ l).
    rewrite !live_maps_app. lia.
  - congruence.
Qed.

Lemma open_fds_perm (a b : list Syscall) :
  Permutation a b -> open_fds a = open_fds b.
Proof.
  induction 1 as [| x l l' _ IH | x y l | l l' l'' _ IH1 _ IH2].
  - reflexivity.
  - change (x :: l) with ([x] ++ l). change (x :: l') with ([x] ++ l').
    rewrite !open_fds_app. lia.
  - change (y :: x :: l) with ([y] ++ [x] ++ l).
    change (x :: y :: l) with ([x] ++ [y] ++ l).
    rewrite !open_fds_app. lia.
  - congruence.
Qed.

Lemma unlinked_perm (a b : list Syscall) :
  Permutation a b -> Permutation (unlinked a) (unlinked b).
Proof.
  induction 1 as [| x l l' _ IH | x y l | l l' l'' _ IH1 _ IH2].
  - constructor.
  - destruct x; cbn [unlinked]; auto.
  - destruct x, y; cbn [unlinked]; auto; apply perm_swap.
  - eapply Permutation_trans; eassumption.
Qed.

(** X18.  A move leaves every resource with one owner.  Among any objects,
    a move assignment between two different ones first closes the target,
    which then holds what the source held, while the source is left invalid,
    without descriptor, and with a [Close] and a [Destroy] that make no call;
    no other object changes.  A move assignment of an object to itself makes
    no call and changes nothing.  The move constructor adds an object that
    holds what the source held.  In each case the calls made, together with
    those of the destructors of all objects afterwards, are the calls of the
    destructors before the move in another order: nothing is unmapped, closed
    or unlinked twice, and nothing is left behind. *)
Theorem move_keeps_one_owner (st : Store) (this other : nat) (t o : Handle) :
  nth_error st this = Some t ->
  nth_error st other = Some o ->
  (exists st' tr,
     move_assign st this other = Some (st', tr)
     /\ length st' = length st
     /\ Permutation (tr ++ destroy_all st') (destroy_all st)
     /\ live_maps (tr ++ destroy_all st') = live_maps (destroy_all st)
     /\ open_fds (tr ++ destroy_all st') = open_fds (destroy_all st)
     /\ Permutation (unlinked (tr ++ destroy_all st')) (unlinked (destroy_all st))
     /\ (this = other -> st' = st /\ tr = [])
     /\ (this <> other ->
         tr = snd (Close t)
         /\ nth_error st' this = Some o
         /\ (exists o',
               nth_error st' other = Some o'
               /\ Valid (obj o') = false /\ fd_open o' = false
               /\ snd (Close o') = [] /\ Destroy o' = []
               /\ Size (obj o') = Size (obj o))
         /\ forall a, a <> this -> a <> other -> nth_error st' a = nth_error st a))
  /\ (exists st' o',
        move_construct st other = Some (st', length st)
        /\ length st' = S (length st)
        /\ nth_error st' (length st) = Some o
        /\ nth_error st' other = Some o'
        /\ Valid (obj o') = false /\ fd_open o' = false
        /\ snd (Close o') = [] /\ Destroy o' = []
        /\ (forall a, a <> other -> (a < length st)%nat ->
                      nth_error st' a = nth_error st a)
        /\ Permutation (destroy_all st') (destroy_all st)).
Proof.
  intros Ht Ho.
  assert (Hlt : (other < length st)%nat)
    by (apply nth_error_Some; rewrite Ho; discriminate).
  split.
  - unfold move_assign. rewrite Ht, Ho. cbn [bind].
    destruct (Nat.eqb_spec this other) as [-> | Hne]; cbn [negb].
    + exists st, []. cbn [app].
      split; [reflexivity |]. split; [reflexivity |].
      split; [apply Permutation_refl |]. split; [reflexivity |].
      split; [reflexivity |]. split; [apply Permutation_refl |].
      split; [auto | congruence].
    + destruct (Close t) as [t' tr] eqn:Ec.
      assert (Etr : tr = snd (Close t)) by (rewrite Ec; reflexivity).
      assert (Et' : t' = fst (Close t)) by (rewrite Ec; reflexivity).
      destruct (MoveFrom o) as [n o'] eqn:Em.
      assert (En : n = o) by (rewrite <- (MoveFrom_fst o), Em; reflexivity).
      assert (Eo' : o' = snd (MoveFrom o)) by (rewrite Em; reflexivity).
      set (st1 := put st this t').
      set (st2 := put st1 this n).
      set (st3 := put st2 other o').
      assert (H1 : nth_error st1 this = Some t') by (eapply nth_error_put_eq; exact Ht).
      assert (H2 : nth_error st2 this = Some n) by (eapply nth_error_put_eq; exact H1).
      assert (H2o : nth_error st2 other = Some o).
      { unfold st2, st1. rewrite !nth_error_put_ne by exact Hne. exact Ho. }
      assert (Hperm : Permutation (tr ++ destroy_all st3) (destroy_all st)).
      { pose proof (destroy_all_put st this t t' Ht) as P1.
        pose proof (destroy_all_put st1 this t' n H1) as P2.
        pose proof (destroy_all_put st2 other o o' H2o) as P3.
        fold st1 in P1. fold st2 in P2. fold st3 in P3.
        rewrite Et', Close_fst_Close in P1, P2. cbn [app] in P1.
        rewrite app_nil_r in P2.
        rewrite Eo', MoveFrom_snd_Close in P3. cbn [snd app] in P3.
        rewrite En in P2. rewrite <- Etr in P1.
        apply (Permutation_app_inv_l (snd (Close o))).
        apply Permutation_trans with ((destroy_all st3 ++ snd (Close o)) ++ tr).
        { apply Permutation_sym.
          eapply Permutation_trans;
            [apply Permutation_app_tail; apply Permutation_app_comm |].
          rewrite <- app_assoc. apply Permutation_app_head. apply Permutation_app_comm. }
        apply Permutation_trans with (destroy_all st2 ++ tr);
          [apply Permutation_app_tail; exact P3 |].
        apply Permutation_trans with ((snd (Close o) ++ destroy_all st1) ++ tr);
          [apply Permutation_app_tail; exact P2 |].
        rewrite <- app_assoc. apply Permutation_app_head. exact P1. }
      exists st3, tr.
      split; [reflexivity |].
      split; [unfold st3, st2, st1; rewrite !length_put; reflexivity |].
      split; [exact Hperm |].
      split; [apply live_maps_perm; exact Hperm |].
      split; [apply open_fds_perm; exact Hperm |].
      split; [apply unlinked_perm; exact Hperm |].
      split; [intros E; contradiction |].
      intros _. split; [reflexivity |].
      split.
      { unfold st3. rewrite nth_error_put_ne by congruence. rewrite H2, En. reflexivity. }
      split.
      { exists o'. split; [unfold st3; eapply nth_error_put_eq; exact H2o |].
        rewrite Eo'. split; [reflexivity |]. split; [reflexivity |].
        split; [reflexivity |]. split; [apply MoveFrom_snd_Destroy | reflexivity]. }
      intros a Ha1 Ha2. unfold st3, st2, st1.
      rewrite !nth_error_put_ne by congruence. reflexivity.
  - unfold move_construct. rewrite Ho. cbn [bind].
    destruct (MoveFrom o) as [n o'] eqn:Em.
    assert (En : n = o) by (rewrite <- (MoveFrom_fst o), Em; reflexivity).
    assert (Eo' : o' = snd (MoveFrom o)) by (rewrite Em; reflexivity).
    exists (put st other o' ++ [n]), o'.
    split; [reflexivity |].
    split; [rewrite length_app, length_put; cbn [length]; lia |].
    split.
    { rewrite nth_error_app2 by (rewrite length_put; lia).
      rewrite length_put, Nat.sub_diag, En. reflexivity. }
    split.
    { rewrite nth_error_app1 by (rewrite length_put; exact Hlt).
      eapply nth_error_put_eq; exact Ho. }
    rewrite Eo'. split; [reflexivity |]. split; [reflexivity |].
    split; [reflexivity |]. split; [apply MoveFrom_snd_Destroy |].
    split.
    { intros a Ha Hal. rewrite nth_error_app1 by (rewrite length_put; exact Hal).
      apply nth_error_put_ne. congruence. }
    pose proof (destroy_all_put st other o (snd (MoveFrom o)) Ho) as P.
    rewrite MoveFrom_snd_Close in P. cbn [snd app] in P.
    unfold destroy_all in *. rewrite flat_map_app. cbn [flat_map].
    rewrite app_nil_r, En. exact P.
Qed.

Lemma move_keeps_one_owner_witness :
  exists st' tr,
    move_assign store2 1 0 = Some (st', tr)
    /\ tr = [Sys_munmap 6220816; Sys_close]
    /\ nth_error st' 1 = nth_error store2 0
    /\ Permutation (tr ++ destroy_all st') (destroy_all store2).
Proof.
  destruct (move_keeps_one_owner store2 1 0 _ _ eq_refl eq_refl)
    as [(st' & tr & H1 & _ & H2 & _ & _ & _ & _ & H3) _].
  destruct (H3 ltac:(discriminate)) as (H4 & H5 & _).
  exists st', tr. split; [exact H1 |]. split; [exact H4 |].
  split; [exact H5 | exact H2].
Defined.

(** X19.  [RemoveSharedMemory] unlinks the kept form of the name exactly
    once, whether or not a region of that name exists or can be mapped, and
    leaves no descriptor and no mapping behind. *)
Theorem RemoveSharedMemory_once (env : PosixEnv) (name : list ascii) :
  exists tr n,
    RemoveSharedMemory env name = Some tr
    /\ stored_name name = Some n
    /\ unlinked tr = [n]
    /\ open_fds tr = 0
    /\ live_maps tr = 0.
Proof.
  destruct (Handle_new_defined env name 16 false false) as (nm & En & E).
  destruct (NormalizeName_hd name nm En) as [Hhd Hst].
  unfold RemoveSharedMemory. rewrite E. cbn [bind].
  exists (let '(tmp, tr) :=
            (let '(ok, fd, sz, e, tr) := PosixOpen_tr env (c_str nm) 16 in
             (mkHandle (mkSharedMemory ok sz e false false nm) fd, tr)) in
          tr ++ Destroy tmp ++ snd (Close tmp)), (c_str nm).
  split.
  - destruct (PosixOpen_tr env (c_str nm) 16) as [[[[ok fd] sz] e] tr]. reflexivity.
  - split; [exact Hst |].
    unfold PosixOpen_tr, MapRegion_tr, Close, Destroy.
    change (16 =? 0) with false. cbv iota.
    destruct (shm_open_ok env (c_str nm)); cbn [negb];
      [destruct (mmap_ok env (c_str nm) 16) |];
      cbn [obj name_ data_nonnull persist_ create_ size_ fd_open negb andb snd app];
      rewrite Hhd; change (Ascii.eqb "/"%char Ascii.zero) with false; cbv iota;
      cbn; auto.
Qed.
